(** * Paparazzi AHRS: multiplicative linearized Kalman filter (MLKF)

    Functional model of
      - sw/airborne/subsystems/ahrs/ahrs_float_mlkf.c
      - sw/airborne/modules/ins/ahrs_chimu_uart.c

    The C code computes with [float]; this development is the
    real-number functional model of it: every [float] is a real number [R],
    [+ - * /] are the exact operations, [fabs] is [Rabs], [M_PI] is [PI].
    Division is the total division of [R].  Rounding, overflow and NaN are
    outside the model.  [uint32_t] values are integers [Z] with the
    wrap-around of the subtraction written out.

    The filter mutates one global [struct AhrsMlkf ahrs_mlkf]; functions that
    only touch that struct are state transformers [AhrsMlkf -> AhrsMlkf];
    functions that also write the vehicle-state interface ([state.h]) or the
    static [last_stamp] transform a [World]. *)

From Stdlib Require Import Reals Lra Lia ZArith List Bool Psatz.
Import ListNotations.
Local Open Scope R_scope.

Set Implicit Arguments.

(* ================================================================== *)
(** * Data types of math/pprz_algebra_float.h and pprz_algebra_int.h   *)
(* ================================================================== *)

(** The C field names [x y z] and [p q r] are shared by the integer and the
    float structs; the projections carry a prefix to keep them apart:
    [vx] is [FloatVect3.x], [ivx] is [Int32Vect3.x], [rp] is [FloatRates.p],
    [irp] is [Int32Rates.p].  The quaternion fields keep their names. *)

Record FloatVect3 := mkFloatVect3 { vx : R; vy : R; vz : R }.
Record FloatRates := mkFloatRates { rp : R; rq : R; rr : R }.
Record FloatQuat := mkFloatQuat { qi : R; qx : R; qy : R; qz : R }.
Record FloatEulers := mkFloatEulers { phi : R; theta : R; psi : R }.
Record Int32Vect3 := mkInt32Vect3 { ivx : Z; ivy : Z; ivz : Z }.
Record Int32Rates := mkInt32Rates { irp : Z; irq : Z; irr : Z }.

(** [struct FloatRMat { float m[3*3]; }] *)
Definition FloatRMat := list R.

(** [struct OrientationReps], reduced to the two representations the filter
    reads through [orientationGetQuat_f] and [orientationGetRMat_f]. *)
Record OrientationReps := mkOrientationReps {
  quat_f : FloatQuat;
  rmat_f : FloatRMat
}.

Definition orientationGetQuat_f (o : OrientationReps) : FloatQuat := quat_f o.
Definition orientationGetRMat_f (o : OrientationReps) : FloatRMat := rmat_f o.

(** ** Quaternion helpers *)

(** Modelled from the spec: [float_quat_comp] (math/pprz_algebra_float.h,
    outside the files modelled here); "composes the reference quaternion
    with the accumulated Gibbs error vector": the quaternion product
    [a2b * b2c]. *)
Definition float_quat_comp (a2b b2c : FloatQuat) : FloatQuat :=
  {| qi := qi a2b * qi b2c - qx a2b * qx b2c - qy a2b * qy b2c - qz a2b * qz b2c;
     qx := qi a2b * qx b2c + qx a2b * qi b2c + qy a2b * qz b2c - qz a2b * qy b2c;
     qy := qi a2b * qy b2c - qx a2b * qz b2c + qy a2b * qi b2c + qz a2b * qx b2c;
     qz := qi a2b * qz b2c + qx a2b * qy b2c - qy a2b * qx b2c + qz a2b * qi b2c |}.

(** Modelled from the spec: [float_quat_norm] (math/pprz_algebra_float.h),
    the Euclidean length of the four components. *)
Definition float_quat_norm (q : FloatQuat) : R :=
  sqrt (qi q * qi q + qx q * qx q + qy q * qy q + qz q * qz q).

(** Modelled from the spec: [float_quat_normalize]
    (math/pprz_algebra_float.h); "renormalizes the result to unit length":
    every component divided by the norm. *)
Definition float_quat_normalize (q : FloatQuat) : FloatQuat :=
  let n := float_quat_norm q in
  {| qi := qi q / n; qx := qx q / n; qy := qy q / n; qz := qz q / n |}.

(** Modelled from the spec: [float_quat_identity]
    (math/pprz_algebra_float.h), as [reset_state] uses it on the Gibbs error
    vector; "resets the Gibbs error vector to its identity value (scalar 2,
    vector zero)". *)
Definition float_quat_identity : FloatQuat :=
  {| qi := 2; qx := 0; qy := 0; qz := 0 |}.

(** Modelled from the spec: [FLOAT_RATES_NORM] / [float_vect3_norm]
    (math/pprz_algebra_float.h), the Euclidean length. *)
Definition float_rates_norm (o : FloatRates) : R :=
  sqrt (rp o * rp o + rq o * rq o + rr o * rr o).

Definition float_vect3_norm (v : FloatVect3) : R :=
  sqrt (vx v * vx v + vy v * vy v + vz v * vz v).

(** The rotation that a constant rate [omega] produces in [dt]: the
    quaternion exponential [(cos a, sin a * omega / |omega|)] with
    [a = |omega| * dt / 2]. *)
Definition rate_rotation (omega : FloatRates) (dt : R) : FloatQuat :=
  let no := float_rates_norm omega in
  let a := 0.5 * no * dt in
  let ca := cos a in
  let sa_ov_no := sin a / no in
  {| qi := ca;
     qx := sa_ov_no * rp omega;
     qy := sa_ov_no * rq omega;
     qz := sa_ov_no * rr omega |}.

(** Modelled from the spec: [float_quat_integrate]
    (math/pprz_algebra_float.h); "integrate the reference quaternion by
    composing it with the rotation corresponding to rate_estimate * dt
    (exact small-rotation quaternion exponential), then renormalize to unit
    length". *)
Definition float_quat_integrate (q : FloatQuat) (omega : FloatRates) (dt : R)
  : FloatQuat :=
  float_quat_normalize (float_quat_comp q (rate_rotation omega dt)).

(* ================================================================== *)
(** * Fixed-size matrices: math/pprz_simple_matrix.h                   *)
(* ================================================================== *)

(** A C array [float A[n][m]] is a list of rows.  Reading is [A[i][j]]. *)
Definition matrix := list (list R).

Definition mget (A : matrix) (i j : nat) : R := nth j (nth i A []) 0.

Fixpoint upd {T : Type} (l : list T) (n : nat) (v : T) : list T :=
  match l, n with
  | [], _ => []
  | _ :: t, O => v :: t
  | h :: t, S n' => h :: upd t n' v
  end.

(** [A[i][j] = v] *)
Definition mset (A : matrix) (i j : nat) (v : R) : matrix :=
  upd A i (upd (nth i A []) j v).

(** Modelled from the spec: the macros [MAT_MUL], [MAT_MUL_T], [MAT_SUB] and
    [MAT_INV33] of math/pprz_simple_matrix.h ("fixed-size linear algebra
    primitives (multiply, transpose-multiply, subtract, 3x3 inverse)").
    Each entry of a product is accumulated from [0.] over the inner index in
    increasing order, as a C loop does. *)
Definition MAT_MUL (_i _k _j : nat) (A B : matrix) : matrix :=
  map (fun l => map (fun c =>
         fold_left (fun acc m => acc + mget A l m * mget B m c) (seq 0 _k) 0)
       (seq 0 _j)) (seq 0 _i).

(** [C = A * B^T] *)
Definition MAT_MUL_T (_i _k _j : nat) (A B : matrix) : matrix :=
  map (fun l => map (fun c =>
         fold_left (fun acc m => acc + mget A l m * mget B c m) (seq 0 _k) 0)
       (seq 0 _j)) (seq 0 _i).

Definition MAT_SUB (_i _j : nat) (A B : matrix) : matrix :=
  map (fun l => map (fun c => mget A l c - mget B l c) (seq 0 _j)) (seq 0 _i).

(** 3x3 inverse by minors and determinant, without a guard on the
    determinant ("the original behavior provides no such guard"). *)
Definition MAT_INV33 (S : matrix) : matrix :=
  let m00 := mget S 1 1 * mget S 2 2 - mget S 1 2 * mget S 2 1 in
  let m10 := mget S 0 1 * mget S 2 2 - mget S 0 2 * mget S 2 1 in
  let m20 := mget S 0 1 * mget S 1 2 - mget S 0 2 * mget S 1 1 in
  let m01 := mget S 1 0 * mget S 2 2 - mget S 1 2 * mget S 2 0 in
  let m11 := mget S 0 0 * mget S 2 2 - mget S 0 2 * mget S 2 0 in
  let m21 := mget S 0 0 * mget S 1 2 - mget S 0 2 * mget S 1 0 in
  let m02 := mget S 1 0 * mget S 2 1 - mget S 1 1 * mget S 2 0 in
  let m12 := mget S 0 0 * mget S 2 1 - mget S 0 1 * mget S 2 0 in
  let m22 := mget S 0 0 * mget S 1 1 - mget S 0 1 * mget S 1 0 in
  let det := mget S 0 0 * m00 - mget S 1 0 * m10 + mget S 2 0 * m20 in
  [[  m00 / det; - m10 / det;   m20 / det];
   [- m01 / det;   m11 / det; - m21 / det];
   [  m02 / det; - m12 / det;   m22 / det]].

(* ================================================================== *)
(** * Matrix algebra of the specification                              *)
(* ================================================================== *)

(** The specification speaks of matrices as mathematical objects: here they
    are functions from indices to reals, with the textbook operations.  The
    theorems relate the arrays the code computes to these. *)
Module MatSpec.

Definition mx := nat -> nat -> R.

Fixpoint big_sum (n : nat) (f : nat -> R) : R :=
  match n with
  | O => 0
  | S n' => big_sum n' f + f n'
  end.

Definition mul (n : nat) (A B : mx) : mx :=
  fun i j => big_sum n (fun k => A i k * B k j).
Definition tr (A : mx) : mx := fun i j => A j i.
Definition add (A B : mx) : mx := fun i j => A i j + B i j.
Definition sub (A B : mx) : mx := fun i j => A i j - B i j.
Definition scal (c : R) (A : mx) : mx := fun i j => c * A i j.
Definition id : mx := fun i j => if Nat.eqb i j then 1 else 0.
Definition zero : mx := fun _ _ => 0.

(** [diag3 a b c] and, for the 6x6 process noise, three times [a] followed
    by three times [b]. *)
Definition diag (d : nat -> R) : mx :=
  fun i j => if Nat.eqb i j then d i else 0.
Definition diag3 (v : FloatVect3) : mx :=
  diag (fun i => match i with O => vx v | 1%nat => vy v | _ => vz v end).
Definition diag33 (a b : R) : mx :=
  diag (fun i => if Nat.ltb i 3 then a else b).

(** The cross-product matrix of a 3-vector. *)
Definition skew (v : FloatVect3) : mx :=
  fun i j =>
    match i, j with
    | 0%nat, 1%nat => - vz v | 0%nat, 2%nat =>   vy v
    | 1%nat, 0%nat =>   vz v | 1%nat, 2%nat => - vx v
    | 2%nat, 0%nat => - vy v | 2%nat, 1%nat =>   vx v
    | _, _ => 0
    end.

(** Block matrix [[A | B]; [C | D]] with blocks of size 3. *)
Definition block3 (A B C D : mx) : mx :=
  fun i j =>
    match Nat.ltb i 3, Nat.ltb j 3 with
    | true, true => A i j
    | true, false => B i (j - 3)%nat
    | false, true => C (i - 3)%nat j
    | false, false => D (i - 3)%nat (j - 3)%nat
    end.

(** The determinant and the inverse of a 3x3 matrix by the cyclic cofactor
    formula. *)
Definition cof3 (S : mx) (i j : nat) : R :=
  S ((i + 1) mod 3)%nat ((j + 1) mod 3)%nat
    * S ((i + 2) mod 3)%nat ((j + 2) mod 3)%nat
  - S ((i + 1) mod 3)%nat ((j + 2) mod 3)%nat
    * S ((i + 2) mod 3)%nat ((j + 1) mod 3)%nat.
Definition det3 (S : mx) : R :=
  S 0%nat 0%nat * cof3 S 0 0 + S 0%nat 1%nat * cof3 S 0 1
  + S 0%nat 2%nat * cof3 S 0 2.
Definition inv3 (S : mx) : mx :=
  fun i j => cof3 S j i / det3 S.

(** Matrix times 3-vector, as a function of the row index. *)
Definition mulv3 (K : mx) (e : FloatVect3) (i : nat) : R :=
  K i 0%nat * vx e + K i 1%nat * vy e + K i 2%nat * vz e.

Definition symmetric (n : nat) (A : mx) : Prop :=
  forall i j, (i < n)%nat -> (j < n)%nat -> A i j = A j i.

End MatSpec.

(** A symmetric [n x n] array. *)
Definition symmetric (n : nat) (A : matrix) : Prop :=
  MatSpec.symmetric n (mget A).

(* ================================================================== *)
(** * subsystems/ahrs/ahrs_float_mlkf.c                                *)
(* ================================================================== *)

(** [enum AhrsMlkfStatus] *)
Inductive AhrsMlkfStatus := AHRS_MLKF_UNINIT | AHRS_MLKF_RUNNING.

Definition status_eqb (a b : AhrsMlkfStatus) : bool :=
  match a, b with
  | AHRS_MLKF_UNINIT, AHRS_MLKF_UNINIT => true
  | AHRS_MLKF_RUNNING, AHRS_MLKF_RUNNING => true
  | _, _ => false
  end.

(** [struct AhrsMlkf] (ahrs_float_mlkf.h): the fields this file reads and
    writes.  [body_to_imu] is a pointer in C; the filter only reads through
    it. *)
Record AhrsMlkf := mkAhrsMlkf {
  ltp_to_imu_quat : FloatQuat;
  imu_rate : FloatRates;
  gyro_bias : FloatRates;
  mag_h : FloatVect3;
  mag_noise : FloatVect3;
  gibbs_cor : FloatQuat;
  P : matrix;
  lp_accel : R;
  status : AhrsMlkfStatus;
  body_to_imu : OrientationReps
}.

Definition set_ltp_to_imu_quat (a : AhrsMlkf) (v : FloatQuat) : AhrsMlkf :=
  mkAhrsMlkf v (imu_rate a) (gyro_bias a) (mag_h a) (mag_noise a)
             (gibbs_cor a) (P a) (lp_accel a) (status a) (body_to_imu a).
Definition set_imu_rate (a : AhrsMlkf) (v : FloatRates) : AhrsMlkf :=
  mkAhrsMlkf (ltp_to_imu_quat a) v (gyro_bias a) (mag_h a) (mag_noise a)
             (gibbs_cor a) (P a) (lp_accel a) (status a) (body_to_imu a).
Definition set_gyro_bias (a : AhrsMlkf) (v : FloatRates) : AhrsMlkf :=
  mkAhrsMlkf (ltp_to_imu_quat a) (imu_rate a) v (mag_h a) (mag_noise a)
             (gibbs_cor a) (P a) (lp_accel a) (status a) (body_to_imu a).
Definition set_mag_h (a : AhrsMlkf) (v : FloatVect3) : AhrsMlkf :=
  mkAhrsMlkf (ltp_to_imu_quat a) (imu_rate a) (gyro_bias a) v (mag_noise a)
             (gibbs_cor a) (P a) (lp_accel a) (status a) (body_to_imu a).
Definition set_mag_noise (a : AhrsMlkf) (v : FloatVect3) : AhrsMlkf :=
  mkAhrsMlkf (ltp_to_imu_quat a) (imu_rate a) (gyro_bias a) (mag_h a) v
             (gibbs_cor a) (P a) (lp_accel a) (status a) (body_to_imu a).
Definition set_gibbs_cor (a : AhrsMlkf) (v : FloatQuat) : AhrsMlkf :=
  mkAhrsMlkf (ltp_to_imu_quat a) (imu_rate a) (gyro_bias a) (mag_h a)
             (mag_noise a) v (P a) (lp_accel a) (status a) (body_to_imu a).
Definition set_P (a : AhrsMlkf) (v : matrix) : AhrsMlkf :=
  mkAhrsMlkf (ltp_to_imu_quat a) (imu_rate a) (gyro_bias a) (mag_h a)
             (mag_noise a) (gibbs_cor a) v (lp_accel a) (status a)
             (body_to_imu a).
Definition set_lp_accel (a : AhrsMlkf) (v : R) : AhrsMlkf :=
  mkAhrsMlkf (ltp_to_imu_quat a) (imu_rate a) (gyro_bias a) (mag_h a)
             (mag_noise a) (gibbs_cor a) (P a) v (status a) (body_to_imu a).
Definition set_status (a : AhrsMlkf) (v : AhrsMlkfStatus) : AhrsMlkf :=
  mkAhrsMlkf (ltp_to_imu_quat a) (imu_rate a) (gyro_bias a) (mag_h a)
             (mag_noise a) (gibbs_cor a) (P a) (lp_accel a) v (body_to_imu a).
Definition set_body_to_imu (a : AhrsMlkf) (v : OrientationReps) : AhrsMlkf :=
  mkAhrsMlkf (ltp_to_imu_quat a) (imu_rate a) (gyro_bias a) (mag_h a)
             (mag_noise a) (gibbs_cor a) (P a) (lp_accel a) (status a) v.

(** ** The vehicle-state interface *)

(** Modelled from the spec: [state.h] ("the shared vehicle-state sink that
    consumes the filter's output").  The sink is the sequence of values
    written to it, most recent first; a consumer sees the most recent value
    of each kind. *)
Inductive StateWrite :=
| NedToBodyQuat_f (q : FloatQuat)
| BodyRates_f (r : FloatRates)
| NedToBodyEulers_f (e : FloatEulers).

Definition State := list StateWrite.

Definition stateSetNedToBodyQuat_f (st : State) (q : FloatQuat) : State :=
  NedToBodyQuat_f q :: st.
Definition stateSetBodyRates_f (st : State) (r : FloatRates) : State :=
  BodyRates_f r :: st.
Definition stateSetNedToBodyEulers_f (st : State) (e : FloatEulers) : State :=
  NedToBodyEulers_f e :: st.

(** The body-frame orientation and rates a consumer reads. *)
Fixpoint stateGetNedToBodyQuat_f (st : State) : option FloatQuat :=
  match st with
  | [] => None
  | NedToBodyQuat_f q :: _ => Some q
  | _ :: t => stateGetNedToBodyQuat_f t
  end.

Fixpoint stateGetBodyRates_f (st : State) : option FloatRates :=
  match st with
  | [] => None
  | BodyRates_f r :: _ => Some r
  | _ :: t => stateGetBodyRates_f t
  end.

(** ** What the file takes from other files *)

(** Helpers of math/pprz_algebra_float.h, subsystems/ahrs/ahrs_float_utils.h
    and math/pprz_algebra.h: they are outside the files modelled here and
    no property below depends on what they compute. *)
Class PprzLib := {
  RATE_FLOAT_OF_BFP : Z -> R;
  ACCEL_FLOAT_OF_BFP : Z -> R;
  MAG_FLOAT_OF_BFP : Z -> R;
  float_quat_vmult : FloatQuat -> FloatVect3 -> FloatVect3;
  float_quat_comp_inv : FloatQuat -> FloatQuat -> FloatQuat;
  float_rmat_transp_ratemult : FloatRMat -> FloatRates -> FloatRates;
  ahrs_float_get_quat_from_accel_mag : Int32Vect3 -> Int32Vect3 -> FloatQuat
}.

(** The build configuration (generated/airframe.h and the [#if]s of the
    file): each [option] is a macro that may be left undefined. *)
Class Airframe := {
  AHRS_H_X : R;
  AHRS_H_Y : R;
  AHRS_H_Z : R;
  AHRS_MAG_NOISE : option FloatVect3;
  USE_AUTO_AHRS_FREQ : bool;
  AHRS_PROPAGATE_FREQUENCY : option R;
  AHRS_PROPAGATE_LOW_PASS_RATES : bool
}.

(** The global [ahrs_mlkf], the static [last_stamp] of [gyro_cb] and the
    vehicle-state interface. *)
Record World := mkWorld {
  ahrs_mlkf : AhrsMlkf;
  last_stamp : Z;
  state : State
}.

Definition set_ahrs_mlkf (w : World) (a : AhrsMlkf) : World :=
  mkWorld a (last_stamp w) (state w).
Definition set_last_stamp (w : World) (s : Z) : World :=
  mkWorld (ahrs_mlkf w) s (state w).
Definition set_state (w : World) (st : State) : World :=
  mkWorld (ahrs_mlkf w) (last_stamp w) st.

(** The events of the ABI bus the filter subscribes to. *)
Inductive Event :=
| IMU_GYRO_INT32 (stamp : Z) (gyro : Int32Rates)
| IMU_ACCEL_INT32 (stamp : Z) (accel : Int32Vect3)
| IMU_MAG_INT32 (stamp : Z) (mag : Int32Vect3)
| IMU_LOWPASSED (stamp : Z) (lp_gyro : Int32Rates)
                (lp_accel_ev lp_mag : Int32Vect3).

Section AhrsFloatMlkf.

Context {lib : PprzLib} {cfg : Airframe}.

(** [RATES_FLOAT_OF_BFP], [ACCELS_FLOAT_OF_BFP], [MAGS_FLOAT_OF_BFP]: the
    fixed-point to float conversion of each component. *)
Definition RATES_FLOAT_OF_BFP (ri : Int32Rates) : FloatRates :=
  {| rp := RATE_FLOAT_OF_BFP (irp ri);
     rq := RATE_FLOAT_OF_BFP (irq ri);
     rr := RATE_FLOAT_OF_BFP (irr ri) |}.
Definition ACCELS_FLOAT_OF_BFP (ai : Int32Vect3) : FloatVect3 :=
  {| vx := ACCEL_FLOAT_OF_BFP (ivx ai);
     vy := ACCEL_FLOAT_OF_BFP (ivy ai);
     vz := ACCEL_FLOAT_OF_BFP (ivz ai) |}.
Definition MAGS_FLOAT_OF_BFP (mi : Int32Vect3) : FloatVect3 :=
  {| vx := MAG_FLOAT_OF_BFP (ivx mi);
     vy := MAG_FLOAT_OF_BFP (ivy mi);
     vz := MAG_FLOAT_OF_BFP (ivz mi) |}.

(** [RATES_SUB(a, b)]: [a -= b] *)
Definition RATES_SUB (a b : FloatRates) : FloatRates :=
  {| rp := rp a - rp b; rq := rq a - rq b; rr := rr a - rr b |}.
(** [FLOAT_RATES_LIN_CMB(ro, r1, s1, r2, s2)]: [ro = s1 * r1 + s2 * r2] *)
Definition FLOAT_RATES_LIN_CMB (r1 : FloatRates) (s1 : R)
           (r2 : FloatRates) (s2 : R) : FloatRates :=
  {| rp := s1 * rp r1 + s2 * rp r2;
     rq := s1 * rq r1 + s2 * rq r2;
     rr := s1 * rr r1 + s2 * rr r2 |}.
(** [VECT3_DIFF(c, a, b)]: [c = a - b] *)
Definition VECT3_DIFF (a b : FloatVect3) : FloatVect3 :=
  {| vx := vx a - vx b; vy := vy a - vy b; vz := vz a - vz b |}.

(** Compute body orientation and rates from imu orientation and rates. *)
Definition set_body_state_from_quat (w : World) : World :=
  let a := ahrs_mlkf w in
  let body_to_imu_quat := orientationGetQuat_f (body_to_imu a) in
  let body_to_imu_rmat := orientationGetRMat_f (body_to_imu a) in
  let ltp_to_body_quat :=
    float_quat_comp_inv (ltp_to_imu_quat a) body_to_imu_quat in
  let st1 := stateSetNedToBodyQuat_f (state w) ltp_to_body_quat in
  let body_rate := float_rmat_transp_ratemult body_to_imu_rmat (imu_rate a) in
  set_state w (stateSetBodyRates_f st1 body_rate).

Definition propagate_ref (a : AhrsMlkf) (gyro : Int32Rates) (dt : R)
  : AhrsMlkf :=
  let gyro_float := RATES_FLOAT_OF_BFP gyro in
  let gyro_float := RATES_SUB gyro_float (gyro_bias a) in
  let a1 :=
    if AHRS_PROPAGATE_LOW_PASS_RATES then
      let alpha := 0.1 in
      set_imu_rate a
        (FLOAT_RATES_LIN_CMB (imu_rate a) (1 - alpha) gyro_float alpha)
    else set_imu_rate a gyro_float in
  set_ltp_to_imu_quat a1
    (float_quat_integrate (ltp_to_imu_quat a1) (imu_rate a1) dt).

(** Propagate the filter's covariance. *)
Definition propagate_state (a : AhrsMlkf) (dt : R) : AhrsMlkf :=
  let dp := rp (imu_rate a) * dt in
  let dq := rq (imu_rate a) * dt in
  let dr := rr (imu_rate a) * dt in
  let F := [[  1;   dr; - dq; - dt;    0;    0];
            [- dr;    1;   dp;    0; - dt;    0];
            [  dq; - dp;    1;    0;    0; - dt];
            [   0;    0;    0;    1;    0;    0];
            [   0;    0;    0;    0;    1;    0];
            [   0;    0;    0;    0;    0;    1]] in
  let tmp := MAT_MUL 6 6 6 F (P a) in
  let P1 := MAT_MUL_T 6 6 6 tmp F in
  let dt2 := dt * dt in
  let GQG := [dt2 * 10e-3; dt2 * 10e-3; dt2 * 10e-3;
              dt2 * 9e-6; dt2 * 9e-6; dt2 * 9e-6] in
  let P2 := fold_left (fun Pm i => mset Pm i i (mget Pm i i + nth i GQG 0))
                      (seq 0 6) P1 in
  set_P a P2.

(** Incorporate one 3D vector measurement. *)
Definition update_state (a : AhrsMlkf)
           (i_expected b_measured noise : FloatVect3) : AhrsMlkf :=
  let b_expected := float_quat_vmult (ltp_to_imu_quat a) i_expected in
  let H := [[             0; - vz b_expected;   vy b_expected; 0; 0; 0];
            [  vz b_expected;               0; - vx b_expected; 0; 0; 0];
            [- vy b_expected;   vx b_expected;               0; 0; 0; 0]] in
  let tmp := MAT_MUL 3 6 6 H (P a) in
  let S := MAT_MUL_T 3 6 3 tmp H in
  let S := mset S 0 0 (mget S 0 0 + vx noise) in
  let S := mset S 1 1 (mget S 1 1 + vy noise) in
  let S := mset S 2 2 (mget S 2 2 + vz noise) in
  let invS := MAT_INV33 S in
  let tmp2 := MAT_MUL_T 6 6 3 (P a) H in
  let K := MAT_MUL 6 3 3 tmp2 invS in
  let tmp3 := MAT_MUL 6 3 6 K H in
  let I6 := [[1; 0; 0; 0; 0; 0];
             [0; 1; 0; 0; 0; 0];
             [0; 0; 1; 0; 0; 0];
             [0; 0; 0; 1; 0; 0];
             [0; 0; 0; 0; 1; 0];
             [0; 0; 0; 0; 0; 1]] in
  let tmp4 := MAT_SUB 6 6 I6 tmp3 in
  let tmp5 := MAT_MUL 6 6 6 tmp4 (P a) in
  let a1 := set_P a tmp5 in
  let e := VECT3_DIFF b_measured b_expected in
  let g := gibbs_cor a1 in
  let a2 := set_gibbs_cor a1
    {| qi := qi g;
       qx := qx g + (mget K 0 0 * vx e + mget K 0 1 * vy e + mget K 0 2 * vz e);
       qy := qy g + (mget K 1 0 * vx e + mget K 1 1 * vy e + mget K 1 2 * vz e);
       qz := qz g + (mget K 2 0 * vx e + mget K 2 1 * vy e + mget K 2 2 * vz e) |} in
  let b := gyro_bias a2 in
  set_gyro_bias a2
    {| rp := rp b + (mget K 3 0 * vx e + mget K 3 1 * vy e + mget K 3 2 * vz e);
       rq := rq b + (mget K 4 0 * vx e + mget K 4 1 * vy e + mget K 4 2 * vz e);
       rr := rr b + (mget K 5 0 * vx e + mget K 5 1 * vy e + mget K 5 2 * vz e) |}.

(** Incorporate errors to reference and zero the error state. *)
Definition reset_state (a : AhrsMlkf) : AhrsMlkf :=
  let g := gibbs_cor a in
  let a1 := set_gibbs_cor a {| qi := 2; qx := qx g; qy := qy g; qz := qz g |} in
  let q_tmp := float_quat_comp (ltp_to_imu_quat a1) (gibbs_cor a1) in
  let q_tmp := float_quat_normalize q_tmp in
  let a2 := set_ltp_to_imu_quat a1 q_tmp in
  set_gibbs_cor a2 float_quat_identity.

Definition ahrs_mlkf_align (w : World) (lp_gyro : Int32Rates)
           (lp_accel_ev lp_mag : Int32Vect3) : bool * World :=
  let a := ahrs_mlkf w in
  let a1 := set_ltp_to_imu_quat a
              (ahrs_float_get_quat_from_accel_mag lp_accel_ev lp_mag) in
  let w1 := set_body_state_from_quat (set_ahrs_mlkf w a1) in
  let bias0 := lp_gyro in
  let a2 := set_gyro_bias (ahrs_mlkf w1) (RATES_FLOAT_OF_BFP bias0) in
  let a3 := set_status a2 AHRS_MLKF_RUNNING in
  (true, set_ahrs_mlkf w1 a3).

Definition ahrs_mlkf_propagate (w : World) (gyro : Int32Rates) (dt : R)
  : World :=
  let a1 := propagate_ref (ahrs_mlkf w) gyro dt in
  let a2 := propagate_state a1 dt in
  set_body_state_from_quat (set_ahrs_mlkf w a2).

Definition ahrs_mlkf_update_accel (a : AhrsMlkf) (accel : Int32Vect3)
  : AhrsMlkf :=
  let imu_g := ACCELS_FLOAT_OF_BFP accel in
  let alpha := 0.92 in
  let a1 := set_lp_accel a
    (alpha * lp_accel a + (1 - alpha) * (float_vect3_norm imu_g - 9.81)) in
  let earth_g := {| vx := 0; vy := 0; vz := - 9.81 |} in
  let dn := 250 * Rabs (lp_accel a1) in
  let g_noise := {| vx := 1 + dn; vy := 1 + dn; vz := 1 + dn |} in
  let a2 := update_state a1 earth_g imu_g g_noise in
  reset_state a2.

Definition ahrs_mlkf_update_mag (a : AhrsMlkf) (mag : Int32Vect3)
  : AhrsMlkf :=
  let imu_h := MAGS_FLOAT_OF_BFP mag in
  let a1 := update_state a (mag_h a) imu_h (mag_noise a) in
  reset_state a1.

(** ** ABI callbacks *)

(** [uint32_t] subtraction *)
Definition sub_u32 (a b : Z) : Z := ((a - b) mod 2 ^ 32)%Z.

Definition is_running (w : World) : bool :=
  status_eqb (status (ahrs_mlkf w)) AHRS_MLKF_RUNNING.

(** [#if USE_AUTO_AHRS_FREQ || !defined(AHRS_PROPAGATE_FREQUENCY)] *)
Definition calculating_dt : bool :=
  USE_AUTO_AHRS_FREQ ||
  match AHRS_PROPAGATE_FREQUENCY with None => true | Some _ => false end.

Definition gyro_cb (w : World) (stamp : Z) (gyro : Int32Rates) : World :=
  if calculating_dt then
    let w1 :=
      if (0 <? last_stamp w)%Z && is_running w then
        let dt := IZR (sub_u32 stamp (last_stamp w)) * 1e-6 in
        ahrs_mlkf_propagate w gyro dt
      else w in
    set_last_stamp w1 stamp
  else
    match AHRS_PROPAGATE_FREQUENCY with
    | Some freq =>
        if is_running w then
          let dt := 1 / freq in
          ahrs_mlkf_propagate w gyro dt
        else w
    | None => w
    end.

Definition accel_cb (w : World) (stamp : Z) (accel : Int32Vect3) : World :=
  if is_running w then
    set_ahrs_mlkf w (ahrs_mlkf_update_accel (ahrs_mlkf w) accel)
  else w.

Definition mag_cb (w : World) (stamp : Z) (mag : Int32Vect3) : World :=
  if is_running w then
    set_ahrs_mlkf w (ahrs_mlkf_update_mag (ahrs_mlkf w) mag)
  else w.

Definition aligner_cb (w : World) (stamp : Z) (lp_gyro : Int32Rates)
           (lp_accel_ev lp_mag : Int32Vect3) : World :=
  if negb (is_running w) then
    snd (ahrs_mlkf_align w lp_gyro lp_accel_ev lp_mag)
  else w.

Definition ahrs_mlkf_init (a : AhrsMlkf) (body_to_imu_p : OrientationReps)
  : AhrsMlkf :=
  let a := set_body_to_imu a body_to_imu_p in
  let a := set_status a AHRS_MLKF_UNINIT in
  let a := set_ltp_to_imu_quat a (orientationGetQuat_f (body_to_imu a)) in
  let a := set_imu_rate a {| rp := 0; rq := 0; rr := 0 |} in
  let a := set_mag_h a {| vx := AHRS_H_X; vy := AHRS_H_Y; vz := AHRS_H_Z |} in
  let a := set_gyro_bias a {| rp := 0; rq := 0; rr := 0 |} in
  let P0_a := 1 in
  let P0_b := 1e-4 in
  let P0 := [[P0_a;    0;    0;    0;    0;    0];
             [   0; P0_a;    0;    0;    0;    0];
             [   0;    0; P0_a;    0;    0;    0];
             [   0;    0;    0; P0_b;    0;    0];
             [   0;    0;    0;    0; P0_b;    0];
             [   0;    0;    0;    0;    0; P0_b]] in
  let a := set_P a P0 in
  set_mag_noise a
    match AHRS_MAG_NOISE with
    | Some n => n
    | None => {| vx := 0.2; vy := 0.2; vz := 0.2 |}
    end.

(** The bus delivers one event at a time to the callback bound to it. *)
Definition dispatch (w : World) (e : Event) : World :=
  match e with
  | IMU_GYRO_INT32 stamp gyro => gyro_cb w stamp gyro
  | IMU_ACCEL_INT32 stamp accel => accel_cb w stamp accel
  | IMU_MAG_INT32 stamp mag => mag_cb w stamp mag
  | IMU_LOWPASSED stamp lp_gyro lp_accel_ev lp_mag =>
      aligner_cb w stamp lp_gyro lp_accel_ev lp_mag
  end.

Definition run (w : World) (es : list Event) : World :=
  fold_left dispatch es w.

(** The zero-initialised global before [ahrs_mlkf_init], and the world
    right after construction. *)
Definition zero_quat : FloatQuat := {| qi := 0; qx := 0; qy := 0; qz := 0 |}.
Definition zero_rates : FloatRates := {| rp := 0; rq := 0; rr := 0 |}.
Definition zero_vect3 : FloatVect3 := {| vx := 0; vy := 0; vz := 0 |}.

Definition ahrs_mlkf_bss : AhrsMlkf :=
  mkAhrsMlkf zero_quat zero_rates zero_rates zero_vect3 zero_vect3 zero_quat
             (repeat (repeat 0 6) 6) 0 AHRS_MLKF_UNINIT
             (mkOrientationReps zero_quat (repeat 0 9)).

Definition world_init (body_to_imu_p : OrientationReps) (st : State)
  : World :=
  mkWorld (ahrs_mlkf_init ahrs_mlkf_bss body_to_imu_p) 0 st.

End AhrsFloatMlkf.

(* ================================================================== *)
(** * modules/ins/ahrs_chimu_uart.c                                    *)
(* ================================================================== *)

(** [CHIMU_PARSER_DATA] (imu_chimu.h): the message id and the attitude that
    [parse_ins_msg] reads and writes; [m_other] stands for the remaining
    fields, which only [CHIMU_Parse] uses. *)
Record CHIMU_attitude_data := mkCHIMU_attitude_data { euler : FloatEulers }.

Record CHIMU_PARSER_DATA (T : Type) := mkCHIMU_PARSER_DATA {
  m_MsgID : Z;
  m_attitude : CHIMU_attitude_data;
  m_other : T
}.

(** The globals [parse_ins_msg] works on: [CHIMU_DATA], [new_ins_attitude],
    the LEDs with the static counter of [RunOnceEvery], the bytes waiting in
    the INS UART, and the vehicle-state interface. *)
Record ChimuWorld (T L : Type) := mkChimuWorld {
  CHIMU_DATA : CHIMU_PARSER_DATA T;
  new_ins_attitude : Z;
  leds : L;
  ins_rx : list Z;
  ins_state : State
}.

Section AhrsChimuUart.

Variables T L : Type.

(** [CHIMU_Parse] (imu_chimu.c) and [RunOnceEvery(25, LED_TOGGLE(3))]
    (led.h) are outside the files modelled here. *)
Variable CHIMU_Parse :
  Z -> Z -> CHIMU_PARSER_DATA T -> bool * CHIMU_PARSER_DATA T.
Variable RunOnceEvery_25_LED_TOGGLE_3 : L -> L.

Definition M_PI : R := PI.

Definition set_euler_phi (d : CHIMU_PARSER_DATA T) (v : R)
  : CHIMU_PARSER_DATA T :=
  let e := euler (m_attitude d) in
  mkCHIMU_PARSER_DATA (m_MsgID d)
    (mkCHIMU_attitude_data {| phi := v; theta := theta e; psi := psi e |})
    (m_other d).

(** The body of the [while] loop for one received byte [ch]. *)
Definition parse_ins_ch (w : ChimuWorld T L) (ch : Z) : ChimuWorld T L :=
  let (accepted, d) := CHIMU_Parse ch 0 (CHIMU_DATA w) in
  if accepted then
    if (m_MsgID d =? 0x03)%Z then
      let leds1 := RunOnceEvery_25_LED_TOGGLE_3 (leds w) in
      let d1 :=
        if Rgt_dec (phi (euler (m_attitude d))) M_PI then
          set_euler_phi d (phi (euler (m_attitude d)) - 2 * M_PI)
        else d in
      let att := {| phi := phi (euler (m_attitude d1));
                    theta := theta (euler (m_attitude d1));
                    psi := psi (euler (m_attitude d1)) |} in
      mkChimuWorld d1 1 leds1 (ins_rx w)
                   (stateSetNedToBodyEulers_f (ins_state w) att)
    else mkChimuWorld d (new_ins_attitude w) (leds w) (ins_rx w) (ins_state w)
  else mkChimuWorld d (new_ins_attitude w) (leds w) (ins_rx w) (ins_state w).

(** [while (InsLink(ChAvailable())) { ch = InsLink(Getch()); ... }]: the
    loop runs once per byte waiting in the UART, recursion is on the
    bytes left. *)
Fixpoint parse_ins_loop (rx : list Z) (w : ChimuWorld T L)
  : ChimuWorld T L :=
  match rx with
  | [] => mkChimuWorld (CHIMU_DATA w) (new_ins_attitude w) (leds w) []
                       (ins_state w)
  | ch :: rest =>
      parse_ins_loop rest
        (parse_ins_ch
           (mkChimuWorld (CHIMU_DATA w) (new_ins_attitude w) (leds w) rest
                         (ins_state w)) ch)
  end.

Definition parse_ins_msg (w : ChimuWorld T L) : ChimuWorld T L :=
  parse_ins_loop (ins_rx w) w.



End AhrsChimuUart.

(* ================================================================== *)
(** * From matrices of the specification to arrays                     *)
(* ================================================================== *)

(** The [n x m] array that holds the entries of [f]. *)
Definition of_mx (n m : nat) (f : MatSpec.mx) : matrix :=
  map (fun i => map (fun j => f i j) (seq 0 m)) (seq 0 n).

(** The matrices the specification names for the two covariance steps. *)
Module KalmanSpec.
Import MatSpec.

(** [rate * dt] as a vector. *)
Definition rate_dt (w : FloatRates) (dt : R) : FloatVect3 :=
  {| vx := rp w * dt; vy := rq w * dt; vz := rr w * dt |}.

(** State transition: attitude block [I - skew(rate * dt)] (identity on
    the diagonal, [+-rate_axis * dt] off it), attitude-to-bias block
    [- dt * I], bias block [I], zero elsewhere. *)
Definition F (w : FloatRates) (dt : R) : mx :=
  block3 (sub id (skew (rate_dt w dt))) (scal (- dt) id) zero id.

(** Process noise: [dt^2 * 1e-2] on the attitude, [dt^2 * 9e-6] on the
    bias. *)
Definition Q (dt : R) : mx := diag33 (dt * dt * 1e-2) (dt * dt * 9e-6).

(** [F P F^T + Q] *)
Definition propagate (w : FloatRates) (dt : R) (Pm : mx) : mx :=
  add (mul 6 (mul 6 (F w dt) Pm) (tr (F w dt))) (Q dt).

(** Observation Jacobian [H = [skew(predicted) | 0]]. *)
Definition H (predicted : FloatVect3) : mx :=
  fun i j => if Nat.ltb j 3 then skew predicted i j else 0.

(** [S = H P H^T + diag(noise)] *)
Definition S (predicted noise : FloatVect3) (Pm : mx) : mx :=
  add (mul 6 (mul 6 (H predicted) Pm) (tr (H predicted))) (diag3 noise).

(** [K = P H^T S^-1] *)
Definition K (predicted noise : FloatVect3) (Pm : mx) : mx :=
  mul 3 (mul 6 Pm (tr (H predicted))) (inv3 (S predicted noise Pm)).

(** [(I - K H) P] *)
Definition update (predicted noise : FloatVect3) (Pm : mx) : mx :=
  mul 6 (sub id (mul 3 (K predicted noise Pm) (H predicted))) Pm.

End KalmanSpec.

(** The arrays [H] and [I6] of [update_state], and its three assignments
    that add the measurement noise to the diagonal of [S]. *)
Definition H_array (b : FloatVect3) : matrix :=
  [[       0; - vz b;   vy b; 0; 0; 0];
   [    vz b;      0; - vx b; 0; 0; 0];
   [  - vy b;   vx b;      0; 0; 0; 0]].

Definition I6_array : matrix :=
  [[1; 0; 0; 0; 0; 0];
   [0; 1; 0; 0; 0; 0];
   [0; 0; 1; 0; 0; 0];
   [0; 0; 0; 1; 0; 0];
   [0; 0; 0; 0; 1; 0];
   [0; 0; 0; 0; 0; 1]].

Definition add_noise (S0 : matrix) (noise : FloatVect3) : matrix :=
  let S1 := mset S0 0 0 (mget S0 0 0 + vx noise) in
  let S2 := mset S1 1 1 (mget S1 1 1 + vy noise) in
  mset S2 2 2 (mget S2 2 2 + vz noise).

(** The array [F] of [propagate_state]. *)
Definition F_array (w : FloatRates) (dt : R) : matrix :=
  [[  1;   rr w * dt; - (rq w * dt); - dt;    0;    0];
   [- (rr w * dt);    1;   rp w * dt;    0; - dt;    0];
   [  rq w * dt; - (rp w * dt);    1;    0;    0; - dt];
   [   0;    0;    0;    1;    0;    0];
   [   0;    0;    0;    0;    1;    0];
   [   0;    0;    0;    0;    0;    1]].

(** Event sequences without a gyro sample, and alignment events. *)
Definition is_gyro (e : Event) : bool :=
  match e with IMU_GYRO_INT32 _ _ => true | _ => false end.
Definition is_lowpassed (e : Event) : bool :=
  match e with IMU_LOWPASSED _ _ _ _ => true | _ => false end.
Definition is_accel_or_mag (e : Event) : bool :=
  match e with
  | IMU_ACCEL_INT32 _ _ | IMU_MAG_INT32 _ _ => true
  | _ => false
  end.

(** The squared length of a quaternion. *)
Definition quat_sq (q : FloatQuat) : R :=
  qi q * qi q + qx q * qx q + qy q * qy q + qz q * qz q.

(** What the body-frame projection pushes to the state interface for the
    filter [a]: the body rates on top of the body quaternion. *)
Definition projection {lib : PprzLib} (a : AhrsMlkf) (st : State) : State :=
  BodyRates_f
    (float_rmat_transp_ratemult (orientationGetRMat_f (body_to_imu a))
                                (imu_rate a))
  :: NedToBodyQuat_f
       (float_quat_comp_inv (ltp_to_imu_quat a)
                            (orientationGetQuat_f (body_to_imu a)))
  :: st.

(* ================================================================== *)
(** * Concrete configurations                                          *)
(* ================================================================== *)

(** One instance of the helper library and two build configurations, to run
    the model on concrete inputs. *)
Definition quat_conj (q : FloatQuat) : FloatQuat :=
  {| qi := qi q; qx := - qx q; qy := - qy q; qz := - qz q |}.

Definition quat_rotate (q : FloatQuat) (v : FloatVect3) : FloatVect3 :=
  let r := float_quat_comp (float_quat_comp (quat_conj q)
             {| qi := 0; qx := vx v; qy := vy v; qz := vz v |}) q in
  {| vx := qx r; vy := qy r; vz := qz r |}.

Definition quat_unit : FloatQuat := {| qi := 1; qx := 0; qy := 0; qz := 0 |}.

Definition lib_example : PprzLib :=
  {| RATE_FLOAT_OF_BFP := fun z => IZR z / 4096;
     ACCEL_FLOAT_OF_BFP := fun z => IZR z / 1024;
     MAG_FLOAT_OF_BFP := fun z => IZR z / 2048;
     float_quat_vmult := quat_rotate;
     float_quat_comp_inv := fun a2c b2c => float_quat_comp a2c (quat_conj b2c);
     float_rmat_transp_ratemult := fun _ r => r;
     ahrs_float_get_quat_from_accel_mag := fun _ _ => quat_unit |}.

(** [dt] comes from the time stamps. *)
Definition cfg_auto : Airframe :=
  {| AHRS_H_X := 1; AHRS_H_Y := 0; AHRS_H_Z := 0;
     AHRS_MAG_NOISE := None;
     USE_AUTO_AHRS_FREQ := true;
     AHRS_PROPAGATE_FREQUENCY := Some 512;
     AHRS_PROPAGATE_LOW_PASS_RATES := false |}.

(** A fixed [AHRS_PROPAGATE_FREQUENCY] gives [dt]. *)
Definition cfg_fixed : Airframe :=
  {| AHRS_H_X := 1; AHRS_H_Y := 0; AHRS_H_Z := 0;
     AHRS_MAG_NOISE := None;
     USE_AUTO_AHRS_FREQ := false;
     AHRS_PROPAGATE_FREQUENCY := Some 512;
     AHRS_PROPAGATE_LOW_PASS_RATES := false |}.

Definition body_to_imu_example : OrientationReps :=
  {| quat_f := quat_unit; rmat_f := [1; 0; 0; 0; 1; 0; 0; 0; 1] |}.

(** The filter right after [ahrs_mlkf_init], when time stamps give [dt]. *)
Definition filter_example : AhrsMlkf :=
  @ahrs_mlkf_init cfg_auto ahrs_mlkf_bss body_to_imu_example.


Definition chimu_parse_keep
  : Z -> Z -> CHIMU_PARSER_DATA unit -> bool * CHIMU_PARSER_DATA unit :=
  fun _ _ d => (true, d).

Definition chimu_world (roll : R) (rx : list Z) : ChimuWorld unit unit :=
  mkChimuWorld
    (mkCHIMU_PARSER_DATA 0x03%Z
       (mkCHIMU_attitude_data {| phi := roll; theta := 0; psi := 0 |}) tt)
    0%Z tt rx [].

Definition accel_zero : Int32Vect3 := {| ivx := 0; ivy := 0; ivz := 0 |}.
Definition gyro_zero : Int32Rates := {| irp := 0; irq := 0; irr := 0 |}.
Definition accel_rest : Int32Vect3 := {| ivx := 0; ivy := 0; ivz := -10045 |}.
Definition mag_north : Int32Vect3 := {| ivx := 2048; ivy := 0; ivz := 0 |}.


(** Events before the first gyro sample, a running filter, and the filter
    of the fixed-frequency build right after alignment. *)
Definition es_example : list Event :=
  [IMU_LOWPASSED 0 gyro_zero accel_rest mag_north;
   IMU_ACCEL_INT32 10 accel_rest].

Definition world_running : World :=
  snd (@ahrs_mlkf_align lib_example
         (@world_init cfg_auto body_to_imu_example [])
         gyro_zero accel_rest mag_north).

Definition world_aligned_fixed : World :=
  @run lib_example cfg_fixed (@world_init cfg_fixed body_to_imu_example [])
       [IMU_LOWPASSED 0 gyro_zero accel_rest mag_north].

(** ** Notions used by the further properties *)

(** The time stamp of the most recent gyro sample of [es], [d] when there is
    none. *)
Definition last_gyro_stamp (d : Z) (es : list Event) : Z :=
  fold_left (fun s e => match e with IMU_GYRO_INT32 stamp _ => stamp | _ => s end)
            es d.

(** The number of gyro samples of [es]. *)
Definition count_gyro (es : list Event) : nat := length (filter is_gyro es).

(** Every component of a rate is at most [B] in magnitude. *)
Definition rates_within (B : R) (r : FloatRates) : Prop :=
  Rabs (rp r) <= B /\ Rabs (rq r) <= B /\ Rabs (rr r) <= B.

(** The covariance between the bias errors (rows 3 to 5) and the attitude
    errors (columns 0 to 2) is zero. *)
Definition bias_attitude_uncorrelated (A : matrix) : Prop :=
  forall i l, (3 <= i < 6)%nat -> (l < 3)%nat -> mget A i l = 0.

(** The vector part of a quaternion is zero. *)
Definition quat_vector_zero (q : FloatQuat) : Prop :=
  qx q = 0 /\ qy q = 0 /\ qz q = 0.

(** The state writes of a list are all Euler attitudes. *)
Definition is_eulers_write (s : StateWrite) : Prop :=
  match s with NedToBodyEulers_f _ => True | _ => False end.

(** The build that low-passes the rates. *)
Definition cfg_lowpass : Airframe :=
  {| AHRS_H_X := 1; AHRS_H_Y := 0; AHRS_H_Z := 0;
     AHRS_MAG_NOISE := None;
     USE_AUTO_AHRS_FREQ := true;
     AHRS_PROPAGATE_FREQUENCY := Some 512;
     AHRS_PROPAGATE_LOW_PASS_RATES := true |}.

(** A running filter that has seen a gyro sample at 1000 us. *)
Definition world_running_stamped : World := set_last_stamp world_running 1000.

Definition es_sensors : list Event :=
  [IMU_GYRO_INT32 1000 gyro_zero; IMU_ACCEL_INT32 1010 accel_rest;
   IMU_MAG_INT32 1020 mag_north; IMU_GYRO_INT32 3000 gyro_zero].

(** A CHIMU parser that never completes a frame. *)
Definition chimu_parse_reject
  : Z -> Z -> CHIMU_PARSER_DATA unit -> bool * CHIMU_PARSER_DATA unit :=
  fun _ _ d => (false, d).

(* ================================================================== *)
(** * Lists and sums                                                   *)
(* ================================================================== *)

Unset Implicit Arguments.

Ltac split_index i := repeat (destruct i as [|i]; try lia).

Lemma nth_map_seq (T : Type) (f : nat -> T) (n i : nat) (d : T) :
  (i < n)%nat -> nth i (map f (seq 0 n)) d = f i.
Proof.
  intros Hi.
  rewrite nth_indep with (d' := f 0%nat)
    by (rewrite length_map, length_seq; exact Hi).
  rewrite map_nth, seq_nth by exact Hi.
  reflexivity.
Qed.

Lemma mget_of_mx (n m : nat) (f : MatSpec.mx) (i j : nat) :
  (i < n)%nat -> (j < m)%nat -> mget (of_mx n m f) i j = f i j.
Proof.
  intros Hi Hj. unfold mget, of_mx.
  rewrite nth_map_seq by exact Hi.
  apply nth_map_seq. exact Hj.
Qed.

Lemma of_mx_ext (n m : nat) (f g : MatSpec.mx) :
  (forall i j, (i < n)%nat -> (j < m)%nat -> f i j = g i j) ->
  of_mx n m f = of_mx n m g.
Proof.
  intros E. unfold of_mx.
  apply map_ext_in. intros i Hi. apply in_seq in Hi.
  apply map_ext_in. intros j Hj. apply in_seq in Hj.
  apply E; lia.
Qed.

Lemma fold_left_big_sum (f : nat -> R) (k : nat) :
  fold_left (fun acc m => acc + f m) (seq 0 k) 0 = MatSpec.big_sum k f.
Proof.
  induction k as [|k IH].
  - reflexivity.
  - rewrite seq_S, fold_left_app, IH. reflexivity.
Qed.

Lemma big_sum_ext (n : nat) (f g : nat -> R) :
  (forall k, (k < n)%nat -> f k = g k) ->
  MatSpec.big_sum n f = MatSpec.big_sum n g.
Proof.
  induction n as [|n IH]; intros E.
  - reflexivity.
  - simpl. rewrite IH by (intros; apply E; lia).
    rewrite E by lia. reflexivity.
Qed.

Lemma big_sum_plus (n : nat) (f g : nat -> R) :
  MatSpec.big_sum n (fun k => f k + g k)
  = MatSpec.big_sum n f + MatSpec.big_sum n g.
Proof.
  induction n as [|n IH]; simpl.
  - ring.
  - rewrite IH. ring.
Qed.

Lemma big_sum_scal_l (n : nat) (c : R) (f : nat -> R) :
  MatSpec.big_sum n (fun k => c * f k) = c * MatSpec.big_sum n f.
Proof.
  induction n as [|n IH]; simpl.
  - ring.
  - rewrite IH. ring.
Qed.

Lemma big_sum_scal_r (n : nat) (c : R) (f : nat -> R) :
  MatSpec.big_sum n (fun k => f k * c) = MatSpec.big_sum n f * c.
Proof.
  induction n as [|n IH]; simpl.
  - ring.
  - rewrite IH. ring.
Qed.

Lemma big_sum_zero (n : nat) :
  MatSpec.big_sum n (fun _ => 0) = 0.
Proof.
  induction n as [|n IH]; simpl.
  - reflexivity.
  - rewrite IH. ring.
Qed.

(** Two finite sums commute. *)
Lemma big_sum_swap (n m : nat) (f : nat -> nat -> R) :
  MatSpec.big_sum n (fun k => MatSpec.big_sum m (fun l => f k l))
  = MatSpec.big_sum m (fun l => MatSpec.big_sum n (fun k => f k l)).
Proof.
  induction n as [|n IH]; simpl.
  - symmetry. apply big_sum_zero.
  - rewrite IH, <- big_sum_plus. reflexivity.
Qed.

Lemma mul_ext (n : nat) (A A' B B' : MatSpec.mx) (i j : nat) :
  (forall k, (k < n)%nat -> A i k = A' i k) ->
  (forall k, (k < n)%nat -> B k j = B' k j) ->
  MatSpec.mul n A B i j = MatSpec.mul n A' B' i j.
Proof.
  intros EA EB. unfold MatSpec.mul.
  apply big_sum_ext. intros k Hk.
  rewrite EA, EB by exact Hk. reflexivity.
Qed.

(** ** The macros compute the textbook operations *)

Lemma MAT_MUL_of_mx (i k j : nat) (A B : matrix) :
  MAT_MUL i k j A B = of_mx i j (MatSpec.mul k (mget A) (mget B)).
Proof.
  unfold MAT_MUL, of_mx, MatSpec.mul.
  apply map_ext. intros l. apply map_ext. intros c.
  apply (fold_left_big_sum (fun m => mget A l m * mget B m c)).
Qed.

Lemma MAT_MUL_T_of_mx (i k j : nat) (A B : matrix) :
  MAT_MUL_T i k j A B
  = of_mx i j (MatSpec.mul k (mget A) (MatSpec.tr (mget B))).
Proof.
  unfold MAT_MUL_T, of_mx, MatSpec.mul, MatSpec.tr.
  apply map_ext. intros l. apply map_ext. intros c.
  apply (fold_left_big_sum (fun m => mget A l m * mget B c m)).
Qed.

Lemma MAT_SUB_of_mx (i j : nat) (A B : matrix) :
  MAT_SUB i j A B = of_mx i j (MatSpec.sub (mget A) (mget B)).
Proof. reflexivity. Qed.

Lemma MAT_INV33_of_mx (S : matrix) :
  MAT_INV33 S = of_mx 3 3 (MatSpec.inv3 (mget S)).
Proof.
  unfold MAT_INV33, of_mx, MatSpec.inv3, MatSpec.det3, MatSpec.cof3.
  cbv zeta. cbn [map seq Nat.add Nat.modulo Nat.divmod fst snd Nat.sub].
  repeat (f_equal; try ring).
Qed.

(** ** Matrix algebra *)

Module MatSpecFacts.
Import MatSpec.

Lemma mul_assoc (n m : nat) (A B C : mx) (i j : nat) :
  mul m (mul n A B) C i j = mul n A (mul m B C) i j.
Proof.
  unfold mul.
  transitivity
    (big_sum m (fun k => big_sum n (fun l => A i l * B l k * C k j))).
  { apply big_sum_ext. intros k _. symmetry. apply big_sum_scal_r. }
  rewrite big_sum_swap.
  apply big_sum_ext. intros l _.
  rewrite <- big_sum_scal_l.
  apply big_sum_ext. intros k _. ring.
Qed.

Lemma mul_sub_distr_r (n : nat) (A B C : mx) (i j : nat) :
  mul n (sub A B) C i j = mul n A C i j - mul n B C i j.
Proof.
  unfold mul, sub.
  induction n as [|n IH]; simpl.
  - ring.
  - rewrite IH. ring.
Qed.

Lemma mul_id_l (n : nat) (A : mx) (i j : nat) :
  (i < n)%nat -> mul n id A i j = A i j.
Proof.
  unfold mul, id.
  induction n as [|n IH]; intros Hi.
  - lia.
  - simpl. destruct (Nat.eqb_spec i n) as [->|Hne].
    + rewrite big_sum_ext with (g := fun _ => 0).
      * rewrite big_sum_zero. ring.
      * intros k Hk. destruct (Nat.eqb_spec n k); [lia | ring].
    + rewrite IH by lia. ring.
Qed.

(** [A P A^T] is symmetric when [P] is. *)
Lemma sandwich_symmetric (n : nat) (A Pm : mx) (i j : nat) :
  symmetric n Pm ->
  mul n (mul n A Pm) (tr A) i j = mul n (mul n A Pm) (tr A) j i.
Proof.
  intros HP. unfold mul, tr.
  transitivity
    (big_sum n (fun k => big_sum n (fun l => A i l * Pm l k * A j k))).
  { apply big_sum_ext. intros k _. symmetry. apply big_sum_scal_r. }
  transitivity
    (big_sum n (fun k => big_sum n (fun l => A j l * Pm l k * A i k))).
  2:{ apply big_sum_ext. intros k _. apply big_sum_scal_r. }
  rewrite big_sum_swap.
  apply big_sum_ext. intros l Hl.
  apply big_sum_ext. intros k Hk.
  rewrite (HP l k Hl Hk). ring.
Qed.

Lemma add_symmetric (n : nat) (A B : mx) :
  symmetric n A -> symmetric n B -> symmetric n (add A B).
Proof.
  intros HA HB i j Hi Hj. unfold add.
  rewrite (HA i j), (HB i j) by assumption. reflexivity.
Qed.

Lemma diag_symmetric (n : nat) (d : nat -> R) : symmetric n (diag d).
Proof.
  intros i j _ _. unfold diag.
  rewrite (Nat.eqb_sym j i).
  destruct (Nat.eqb_spec i j) as [->|_]; reflexivity.
Qed.

Lemma inv3_ext (S S' : mx) (i j : nat) :
  (forall k l, (k < 3)%nat -> (l < 3)%nat -> S k l = S' k l) ->
  inv3 S i j = inv3 S' i j.
Proof.
  intros E. unfold inv3, det3, cof3.
  rewrite !E by (try apply Nat.mod_upper_bound; lia).
  reflexivity.
Qed.

Lemma inv3_symmetric (S : mx) :
  symmetric 3 S -> symmetric 3 (inv3 S).
Proof.
  intros HS i j Hi Hj. unfold inv3. f_equal.
  unfold cof3.
  assert (M : forall k, (k mod 3 < 3)%nat)
    by (intros k; apply Nat.mod_upper_bound; lia).
  rewrite (HS ((j + 1) mod 3) ((i + 1) mod 3))%nat by apply M.
  rewrite (HS ((j + 2) mod 3) ((i + 2) mod 3))%nat by apply M.
  rewrite (HS ((j + 1) mod 3) ((i + 2) mod 3))%nat by apply M.
  rewrite (HS ((j + 2) mod 3) ((i + 1) mod 3))%nat by apply M.
  ring.
Qed.

(** [inv3 S] is the inverse of [S] whenever [S] has one. *)
Lemma inv3_mul_l (S : mx) (i j : nat) :
  det3 S <> 0 -> (i < 3)%nat -> (j < 3)%nat ->
  mul 3 (inv3 S) S i j = id i j.
Proof.
  intros Hd Hi Hj. unfold mul, inv3.
  split_index i; split_index j;
    unfold cof3, id; simpl; unfold det3, cof3 in *; simpl in *;
    field; exact Hd.
Qed.

Lemma mul_id_r (n : nat) (A : mx) (i j : nat) :
  (j < n)%nat -> mul n A id i j = A i j.
Proof.
  unfold mul, id.
  induction n as [|n IH]; intros Hj.
  - lia.
  - simpl. destruct (Nat.eqb_spec n j) as [->|Hne].
    + rewrite big_sum_ext with (g := fun _ => 0).
      * rewrite big_sum_zero. ring.
      * intros k Hk. destruct (Nat.eqb_spec k j); [lia | ring].
    + rewrite IH by lia. ring.
Qed.

End MatSpecFacts.

Module KalmanSpecFacts.
Import MatSpec MatSpecFacts KalmanSpec.

Lemma propagate_symmetric (w : FloatRates) (dt : R) (Pm : mx) :
  symmetric 6 Pm -> symmetric 6 (propagate w dt Pm).
Proof.
  intros HP. unfold propagate. apply add_symmetric.
  - intros i j _ _. apply sandwich_symmetric. exact HP.
  - apply diag_symmetric.
Qed.

Lemma S_symmetric (b noise : FloatVect3) (Pm : mx) :
  symmetric 6 Pm -> symmetric 3 (S b noise Pm).
Proof.
  intros HP. unfold S. apply add_symmetric.
  - intros i j _ _. apply sandwich_symmetric. exact HP.
  - apply diag_symmetric.
Qed.

(** [(I - K H) P = P - (H P)^T S^-1 (H P)] when [P] is symmetric. *)
Lemma update_entry (b noise : FloatVect3) (Pm : mx) (i j : nat) :
  symmetric 6 Pm -> (i < 6)%nat ->
  update b noise Pm i j
  = Pm i j
    - mul 3 (mul 3 (tr (mul 6 (H b) Pm)) (inv3 (S b noise Pm)))
            (tr (tr (mul 6 (H b) Pm))) i j.
Proof.
  intros HP Hi. unfold update, K.
  rewrite mul_sub_distr_r, mul_id_l by exact Hi.
  f_equal.
  rewrite mul_assoc.
  apply mul_ext; intros k Hk; [|reflexivity].
  apply mul_ext; intros l Hl; [|reflexivity].
  unfold tr, mul. apply big_sum_ext. intros m Hm.
  rewrite (HP i m Hi Hm). ring.
Qed.

Lemma update_symmetric (b noise : FloatVect3) (Pm : mx) :
  symmetric 6 Pm -> symmetric 6 (update b noise Pm).
Proof.
  intros HP i j Hi Hj.
  rewrite !update_entry by assumption.
  rewrite (HP i j Hi Hj). f_equal.
  apply sandwich_symmetric.
  apply inv3_symmetric, S_symmetric, HP.
Qed.

(** The gain solves [K S = P H^T] whenever [S] is invertible. *)
Lemma K_mul_S (b noise : FloatVect3) (Pm : mx) (i j : nat) :
  det3 (S b noise Pm) <> 0 -> (j < 3)%nat ->
  mul 3 (K b noise Pm) (S b noise Pm) i j = mul 6 Pm (tr (H b)) i j.
Proof.
  intros Hd Hj. unfold K.
  rewrite mul_assoc.
  rewrite <- (mul_id_r 3 (mul 6 Pm (tr (H b))) i j Hj).
  apply mul_ext; intros k Hk; [reflexivity|].
  apply inv3_mul_l; assumption.
Qed.
End KalmanSpecFacts.

(** ** The arrays of the filter hold the matrices of the specification *)

Lemma F_array_spec (w : FloatRates) (dt : R) (i j : nat) :
  (i < 6)%nat -> (j < 6)%nat ->
  mget (F_array w dt) i j = KalmanSpec.F w dt i j.
Proof.
  intros Hi Hj.
  split_index i; split_index j;
    unfold KalmanSpec.F, MatSpec.block3, MatSpec.sub, MatSpec.scal,
      MatSpec.id, MatSpec.zero, MatSpec.skew, KalmanSpec.rate_dt, mget;
    simpl; ring.
Qed.

Lemma H_array_spec (b : FloatVect3) (i j : nat) :
  (i < 3)%nat -> (j < 6)%nat -> mget (H_array b) i j = KalmanSpec.H b i j.
Proof.
  intros Hi Hj.
  split_index i; split_index j; reflexivity.
Qed.

Lemma I6_array_spec (i j : nat) :
  (i < 6)%nat -> (j < 6)%nat -> mget I6_array i j = MatSpec.id i j.
Proof.
  intros Hi Hj.
  split_index i; split_index j; reflexivity.
Qed.

Lemma add_diag_of_mx (f : MatSpec.mx) (GQG : list R) :
  fold_left (fun Pm i => mset Pm i i (mget Pm i i + nth i GQG 0))
            (seq 0 6) (of_mx 6 6 f)
  = of_mx 6 6 (fun i j => if Nat.eqb i j then f i j + nth i GQG 0 else f i j).
Proof. reflexivity. Qed.

Lemma add_noise_of_mx (f : MatSpec.mx) (noise : FloatVect3) :
  add_noise (of_mx 3 3 f) noise
  = of_mx 3 3 (fun i j =>
      if Nat.eqb i j
      then f i j + match i with
                   | O => vx noise | 1%nat => vy noise | _ => vz noise
                   end
      else f i j).
Proof. reflexivity. Qed.

Lemma propagate_state_P (a : AhrsMlkf) (dt : R) :
  P (propagate_state a dt)
  = of_mx 6 6 (KalmanSpec.propagate (imu_rate a) dt (mget (P a))).
Proof.
  unfold propagate_state. fold (F_array (imu_rate a) dt).
  cbv zeta. unfold set_P; cbn [P].
  rewrite MAT_MUL_of_mx, MAT_MUL_T_of_mx, add_diag_of_mx.
  apply of_mx_ext. intros i j Hi Hj.
  assert (E : MatSpec.mul 6
      (mget (of_mx 6 6 (MatSpec.mul 6 (mget (F_array (imu_rate a) dt))
                                      (mget (P a)))))
      (MatSpec.tr (mget (F_array (imu_rate a) dt))) i j
    = MatSpec.mul 6
        (MatSpec.mul 6 (KalmanSpec.F (imu_rate a) dt) (mget (P a)))
        (MatSpec.tr (KalmanSpec.F (imu_rate a) dt)) i j).
  { apply mul_ext; intros k Hk.
    - rewrite mget_of_mx by assumption.
      apply mul_ext; intros l Hl;
        [apply F_array_spec; assumption | reflexivity].
    - unfold MatSpec.tr. apply F_array_spec; assumption. }
  rewrite E.
  unfold KalmanSpec.propagate, MatSpec.add, KalmanSpec.Q, MatSpec.diag33,
    MatSpec.diag.
  destruct (Nat.eqb_spec i j) as [<-|_]; [|ring].
  split_index i; cbn [nth Nat.ltb Nat.leb]; lra.
Qed.

Lemma S_array_spec (Pl : matrix) (b noise : FloatVect3) :
  add_noise (MAT_MUL_T 3 6 3 (MAT_MUL 3 6 6 (H_array b) Pl) (H_array b)) noise
  = of_mx 3 3 (KalmanSpec.S b noise (mget Pl)).
Proof.
  rewrite MAT_MUL_of_mx, MAT_MUL_T_of_mx.
  rewrite add_noise_of_mx.
  apply of_mx_ext. intros i j Hi Hj.
  unfold KalmanSpec.S, MatSpec.add, MatSpec.diag3, MatSpec.diag.
  assert (E : MatSpec.mul 6
      (mget (of_mx 3 6 (MatSpec.mul 6 (mget (H_array b)) (mget Pl))))
      (MatSpec.tr (mget (H_array b))) i j
    = MatSpec.mul 6 (MatSpec.mul 6 (KalmanSpec.H b) (mget Pl))
        (MatSpec.tr (KalmanSpec.H b)) i j).
  { apply mul_ext; intros k Hk.
    - rewrite mget_of_mx by lia.
      apply mul_ext; intros l Hl; [apply H_array_spec; lia | reflexivity].
    - unfold MatSpec.tr. apply H_array_spec; lia. }
  rewrite E.
  destruct (Nat.eqb i j); ring.
Qed.

Lemma K_array_spec (Pl : matrix) (b noise : FloatVect3) :
  MAT_MUL 6 3 3 (MAT_MUL_T 6 6 3 Pl (H_array b))
    (MAT_INV33
       (add_noise (MAT_MUL_T 3 6 3 (MAT_MUL 3 6 6 (H_array b) Pl) (H_array b))
                  noise))
  = of_mx 6 3 (KalmanSpec.K b noise (mget Pl)).
Proof.
  rewrite (S_array_spec Pl b noise).
  rewrite MAT_INV33_of_mx, MAT_MUL_T_of_mx, MAT_MUL_of_mx.
  apply of_mx_ext. intros i j Hi Hj.
  unfold KalmanSpec.K.
  apply mul_ext; intros k Hk.
  - rewrite mget_of_mx by lia.
    apply mul_ext; intros l Hl; [reflexivity|].
    unfold MatSpec.tr. apply H_array_spec; lia.
  - rewrite mget_of_mx by lia.
    apply MatSpecFacts.inv3_ext. intros k' l' Hk' Hl'. apply mget_of_mx; lia.
Qed.

Lemma P_update_array_spec (Pl K : matrix) (b noise : FloatVect3) :
  K = of_mx 6 3 (KalmanSpec.K b noise (mget Pl)) ->
  MAT_MUL 6 6 6
    (MAT_SUB 6 6 I6_array (MAT_MUL 6 3 6 K (H_array b))) Pl
  = of_mx 6 6 (KalmanSpec.update b noise (mget Pl)).
Proof.
  intros ->.
  rewrite MAT_SUB_of_mx, !MAT_MUL_of_mx.
  apply of_mx_ext. intros i j Hi Hj.
  unfold KalmanSpec.update.
  apply mul_ext; intros k Hk; [|reflexivity].
  rewrite mget_of_mx by lia.
  unfold MatSpec.sub. f_equal.
  - apply I6_array_spec; lia.
  - rewrite mget_of_mx by lia.
    apply mul_ext; intros l Hl.
    + apply mget_of_mx; lia.
    + apply H_array_spec; lia.
Qed.

Section UpdateState.

Context {lib : PprzLib}.

(** What [update_state] leaves in [ahrs_mlkf], field by field. *)
Lemma update_state_eq (a : AhrsMlkf)
      (i_expected b_measured noise : FloatVect3) :
  let predicted := float_quat_vmult (ltp_to_imu_quat a) i_expected in
  let K := KalmanSpec.K predicted noise (mget (P a)) in
  let e := VECT3_DIFF b_measured predicted in
  update_state a i_expected b_measured noise
  = mkAhrsMlkf
      (ltp_to_imu_quat a) (imu_rate a)
      {| rp := rp (gyro_bias a) + MatSpec.mulv3 K e 3;
         rq := rq (gyro_bias a) + MatSpec.mulv3 K e 4;
         rr := rr (gyro_bias a) + MatSpec.mulv3 K e 5 |}
      (mag_h a) (mag_noise a)
      {| qi := qi (gibbs_cor a);
         qx := qx (gibbs_cor a) + MatSpec.mulv3 K e 0;
         qy := qy (gibbs_cor a) + MatSpec.mulv3 K e 1;
         qz := qz (gibbs_cor a) + MatSpec.mulv3 K e 2 |}
      (of_mx 6 6 (KalmanSpec.update predicted noise (mget (P a))))
      (lp_accel a) (status a) (body_to_imu a).
Proof.
  intros predicted K e.
  pose proof (K_array_spec (P a) predicted noise) as EK.
  pose proof (P_update_array_spec (P a) _ predicted noise EK) as EP.
  change (update_state a i_expected b_measured noise) with
    (let Ka := MAT_MUL 6 3 3 (MAT_MUL_T 6 6 3 (P a) (H_array predicted))
       (MAT_INV33
         (add_noise
            (MAT_MUL_T 3 6 3 (MAT_MUL 3 6 6 (H_array predicted) (P a))
                       (H_array predicted)) noise)) in
     mkAhrsMlkf
      (ltp_to_imu_quat a) (imu_rate a)
      {| rp := rp (gyro_bias a)
               + (mget Ka 3 0 * vx e + mget Ka 3 1 * vy e + mget Ka 3 2 * vz e);
         rq := rq (gyro_bias a)
               + (mget Ka 4 0 * vx e + mget Ka 4 1 * vy e + mget Ka 4 2 * vz e);
         rr := rr (gyro_bias a)
               + (mget Ka 5 0 * vx e + mget Ka 5 1 * vy e + mget Ka 5 2 * vz e) |}
      (mag_h a) (mag_noise a)
      {| qi := qi (gibbs_cor a);
         qx := qx (gibbs_cor a)
               + (mget Ka 0 0 * vx e + mget Ka 0 1 * vy e + mget Ka 0 2 * vz e);
         qy := qy (gibbs_cor a)
               + (mget Ka 1 0 * vx e + mget Ka 1 1 * vy e + mget Ka 1 2 * vz e);
         qz := qz (gibbs_cor a)
               + (mget Ka 2 0 * vx e + mget Ka 2 1 * vy e + mget Ka 2 2 * vz e) |}
      (MAT_MUL 6 6 6
         (MAT_SUB 6 6 I6_array (MAT_MUL 6 3 6 Ka (H_array predicted))) (P a))
      (lp_accel a) (status a) (body_to_imu a)).
  cbv zeta. rewrite EP, EK.
  rewrite !mget_of_mx by lia.
  reflexivity.
Qed.

End UpdateState.

(* ================================================================== *)
(** * Quaternions, reset and reference propagation                     *)
(* ================================================================== *)

(** ** Quaternions *)

Lemma quat_sq_nonneg (q : FloatQuat) : 0 <= quat_sq q.
Proof. unfold quat_sq. nra. Qed.

Lemma float_quat_norm_sq (q : FloatQuat) :
  float_quat_norm q * float_quat_norm q = quat_sq q.
Proof. apply sqrt_sqrt, quat_sq_nonneg. Qed.

Lemma float_quat_norm_nonneg (q : FloatQuat) : 0 <= float_quat_norm q.
Proof. apply sqrt_pos. Qed.

(** The norm of a product is the product of the norms. *)
Lemma float_quat_norm_comp (a b : FloatQuat) :
  float_quat_norm (float_quat_comp a b)
  = float_quat_norm a * float_quat_norm b.
Proof.
  unfold float_quat_norm at 2 3.
  rewrite <- sqrt_mult by apply quat_sq_nonneg.
  unfold float_quat_norm. f_equal.
  unfold float_quat_comp; cbn [qi qx qy qz]. ring.
Qed.

Lemma float_quat_norm_normalize (q : FloatQuat) :
  float_quat_norm q <> 0 ->
  float_quat_norm (float_quat_normalize q) = 1.
Proof.
  intros Hn.
  unfold float_quat_normalize. cbv zeta.
  unfold float_quat_norm at 1. cbn [qi qx qy qz].
  replace (qi q / float_quat_norm q * (qi q / float_quat_norm q)
           + qx q / float_quat_norm q * (qx q / float_quat_norm q)
           + qy q / float_quat_norm q * (qy q / float_quat_norm q)
           + qz q / float_quat_norm q * (qz q / float_quat_norm q))
    with (quat_sq q / (float_quat_norm q * float_quat_norm q))
    by (unfold quat_sq; field; exact Hn).
  rewrite float_quat_norm_sq.
  unfold Rdiv. rewrite Rinv_r.
  - apply sqrt_1.
  - rewrite <- float_quat_norm_sq. nra.
Qed.

(** A quaternion with scalar part 2 is not zero. *)
Lemma float_quat_norm_scalar_2 (x y z : R) :
  float_quat_norm {| qi := 2; qx := x; qy := y; qz := z |} <> 0.
Proof.
  intros E.
  pose proof (float_quat_norm_sq {| qi := 2; qx := x; qy := y; qz := z |}) as Hs.
  rewrite E in Hs. unfold quat_sq in Hs. cbn [qi qx qy qz] in Hs. nra.
Qed.

Lemma float_rates_norm_sq (o : FloatRates) :
  float_rates_norm o * float_rates_norm o
  = rp o * rp o + rq o * rq o + rr o * rr o.
Proof. apply sqrt_sqrt. nra. Qed.

(** The rotation of a constant rate is a unit quaternion. *)
Lemma float_quat_norm_rate_rotation (omega : FloatRates) (dt : R) :
  float_quat_norm (rate_rotation omega dt) = 1.
Proof.
  unfold float_quat_norm, rate_rotation. cbv zeta. cbn [qi qx qy qz].
  pose proof (float_rates_norm_sq omega) as Hs.
  set (no := float_rates_norm omega) in *.
  set (a := 0.5 * no * dt).
  rewrite <- sqrt_1. f_equal.
  destruct (Req_dec no 0) as [Hz|Hnz].
  - assert (Ha : a = 0) by (unfold a; rewrite Hz; ring).
    rewrite Ha, sin_0, cos_0. unfold Rdiv. ring.
  - replace (cos a * cos a
             + sin a / no * rp omega * (sin a / no * rp omega)
             + sin a / no * rq omega * (sin a / no * rq omega)
             + sin a / no * rr omega * (sin a / no * rr omega))
      with (cos a * cos a
            + sin a * sin a
              * ((rp omega * rp omega + rq omega * rq omega
                  + rr omega * rr omega) / (no * no)))
      by (field; exact Hnz).
    rewrite <- Hs.
    replace (no * no / (no * no)) with 1 by (field; exact Hnz).
    pose proof (sin2_cos2 a) as Hsc. unfold Rsqr in Hsc. lra.
Qed.

(** Integration of a unit rotation keeps the length before the final
    normalisation. *)
Lemma float_quat_norm_comp_rate_rotation (q : FloatQuat) (omega : FloatRates)
      (dt : R) :
  float_quat_norm (float_quat_comp q (rate_rotation omega dt))
  = float_quat_norm q.
Proof.
  rewrite float_quat_norm_comp, float_quat_norm_rate_rotation. ring.
Qed.

Lemma float_quat_norm_integrate (q : FloatQuat) (omega : FloatRates) (dt : R) :
  float_quat_norm q <> 0 ->
  float_quat_norm (float_quat_integrate q omega dt) = 1.
Proof.
  intros Hq. unfold float_quat_integrate.
  apply float_quat_norm_normalize.
  rewrite float_quat_norm_comp_rate_rotation. exact Hq.
Qed.

Section ResetAndPropagate.

Context {lib : PprzLib} {cfg : Airframe}.

Lemma reset_state_eq (a : AhrsMlkf) :
  reset_state a
  = mkAhrsMlkf
      (float_quat_normalize
         (float_quat_comp (ltp_to_imu_quat a)
            {| qi := 2; qx := qx (gibbs_cor a); qy := qy (gibbs_cor a);
               qz := qz (gibbs_cor a) |}))
      (imu_rate a) (gyro_bias a) (mag_h a) (mag_noise a)
      {| qi := 2; qx := 0; qy := 0; qz := 0 |}
      (P a) (lp_accel a) (status a) (body_to_imu a).
Proof. reflexivity. Qed.

Lemma reset_state_unit (a : AhrsMlkf) :
  float_quat_norm (ltp_to_imu_quat a) <> 0 ->
  float_quat_norm (ltp_to_imu_quat (reset_state a)) = 1.
Proof.
  intros Hq. rewrite reset_state_eq. cbn [ltp_to_imu_quat].
  apply float_quat_norm_normalize.
  rewrite float_quat_norm_comp.
  apply Rmult_integral_contrapositive_currified;
    [exact Hq | apply float_quat_norm_scalar_2].
Qed.

Lemma propagate_ref_unit (a : AhrsMlkf) (gyro : Int32Rates) (dt : R) :
  float_quat_norm (ltp_to_imu_quat a) <> 0 ->
  float_quat_norm (ltp_to_imu_quat (propagate_ref a gyro dt)) = 1.
Proof.
  intros Hq. unfold propagate_ref. cbv zeta.
  destruct AHRS_PROPAGATE_LOW_PASS_RATES;
    unfold set_ltp_to_imu_quat, set_imu_rate; cbn [ltp_to_imu_quat imu_rate];
    apply float_quat_norm_integrate; exact Hq.
Qed.

End ResetAndPropagate.

(* ================================================================== *)
(** * Callbacks                                                        *)
(* ================================================================== *)

Section Callbacks.

Context {lib : PprzLib} {cfg : Airframe}.

Lemma status_eqb_spec (a b : AhrsMlkfStatus) :
  status_eqb a b = true <-> a = b.
Proof. destruct a, b; simpl; split; congruence. Qed.

Lemma is_running_true (w : World) :
  is_running w = true <-> status (ahrs_mlkf w) = AHRS_MLKF_RUNNING.
Proof. apply status_eqb_spec. Qed.

Lemma is_running_false (w : World) :
  is_running w = false <-> status (ahrs_mlkf w) = AHRS_MLKF_UNINIT.
Proof.
  unfold is_running. destruct (status (ahrs_mlkf w)); simpl;
    split; congruence.
Qed.

(** *** Fields that each step leaves alone *)

Lemma update_state_status a ie bm n :
  status (update_state a ie bm n) = status a.
Proof. reflexivity. Qed.

Lemma reset_state_status a : status (reset_state a) = status a.
Proof. reflexivity. Qed.

Lemma ahrs_mlkf_update_accel_status a accel :
  status (ahrs_mlkf_update_accel a accel) = status a.
Proof. reflexivity. Qed.

Lemma ahrs_mlkf_update_mag_status a mag :
  status (ahrs_mlkf_update_mag a mag) = status a.
Proof. reflexivity. Qed.

Lemma propagate_ref_status a gyro dt :
  status (propagate_ref a gyro dt) = status a.
Proof.
  unfold propagate_ref. cbv zeta.
  destruct AHRS_PROPAGATE_LOW_PASS_RATES; reflexivity.
Qed.

Lemma ahrs_mlkf_propagate_status w gyro dt :
  status (ahrs_mlkf (ahrs_mlkf_propagate w gyro dt)) = status (ahrs_mlkf w).
Proof.
  unfold ahrs_mlkf_propagate. cbv zeta.
  cbn [set_body_state_from_quat ahrs_mlkf set_state set_ahrs_mlkf].
  unfold propagate_state. cbv zeta. cbn [status set_P].
  apply propagate_ref_status.
Qed.

Lemma ahrs_mlkf_propagate_state w gyro dt :
  state (ahrs_mlkf_propagate w gyro dt)
  = projection (ahrs_mlkf (ahrs_mlkf_propagate w gyro dt)) (state w).
Proof. reflexivity. Qed.

Lemma ahrs_mlkf_align_state w lp_gyro lp_accel_ev lp_mag :
  state (snd (ahrs_mlkf_align w lp_gyro lp_accel_ev lp_mag))
  = projection (ahrs_mlkf (snd (ahrs_mlkf_align w lp_gyro lp_accel_ev lp_mag)))
               (state w).
Proof. reflexivity. Qed.

Lemma ahrs_mlkf_align_status w lp_gyro lp_accel_ev lp_mag :
  status (ahrs_mlkf (snd (ahrs_mlkf_align w lp_gyro lp_accel_ev lp_mag)))
  = AHRS_MLKF_RUNNING.
Proof. reflexivity. Qed.

Lemma accel_cb_state w stamp accel :
  state (accel_cb w stamp accel) = state w.
Proof. unfold accel_cb. destruct (is_running w); reflexivity. Qed.

Lemma mag_cb_state w stamp mag :
  state (mag_cb w stamp mag) = state w.
Proof. unfold mag_cb. destruct (is_running w); reflexivity. Qed.

Lemma accel_cb_last_stamp w stamp accel :
  last_stamp (accel_cb w stamp accel) = last_stamp w.
Proof. unfold accel_cb. destruct (is_running w); reflexivity. Qed.

Lemma mag_cb_last_stamp w stamp mag :
  last_stamp (mag_cb w stamp mag) = last_stamp w.
Proof. unfold mag_cb. destruct (is_running w); reflexivity. Qed.

Lemma aligner_cb_last_stamp w stamp g a m :
  last_stamp (aligner_cb w stamp g a m) = last_stamp w.
Proof. unfold aligner_cb. destruct (is_running w); reflexivity. Qed.

Lemma accel_cb_status w stamp accel :
  status (ahrs_mlkf (accel_cb w stamp accel)) = status (ahrs_mlkf w).
Proof. unfold accel_cb. destruct (is_running w); reflexivity. Qed.

Lemma mag_cb_status w stamp mag :
  status (ahrs_mlkf (mag_cb w stamp mag)) = status (ahrs_mlkf w).
Proof. unfold mag_cb. destruct (is_running w); reflexivity. Qed.

Lemma gyro_cb_status w stamp gyro :
  status (ahrs_mlkf (gyro_cb w stamp gyro)) = status (ahrs_mlkf w).
Proof.
  unfold gyro_cb. destruct calculating_dt.
  - destruct ((0 <? last_stamp w)%Z && is_running w); cbn [set_last_stamp ahrs_mlkf];
      [apply ahrs_mlkf_propagate_status | reflexivity].
  - destruct AHRS_PROPAGATE_FREQUENCY; [|reflexivity].
    destruct (is_running w); [apply ahrs_mlkf_propagate_status | reflexivity].
Qed.

(** Running is kept by every event. *)
Lemma dispatch_running w e :
  status (ahrs_mlkf w) = AHRS_MLKF_RUNNING ->
  status (ahrs_mlkf (dispatch w e)) = AHRS_MLKF_RUNNING.
Proof.
  intros Hr. destruct e; cbn [dispatch].
  - rewrite gyro_cb_status. exact Hr.
  - rewrite accel_cb_status. exact Hr.
  - rewrite mag_cb_status. exact Hr.
  - unfold aligner_cb. apply is_running_true in Hr. rewrite Hr.
    apply is_running_true. exact Hr.
Qed.

Lemma run_running w es :
  status (ahrs_mlkf w) = AHRS_MLKF_RUNNING ->
  status (ahrs_mlkf (run w es)) = AHRS_MLKF_RUNNING.
Proof.
  revert w. induction es as [|e es IH]; intros w Hr.
  - exact Hr.
  - cbn [run fold_left]. apply IH, dispatch_running, Hr.
Qed.

Lemma run_no_gyro_last_stamp w es :
  forallb (fun e => negb (is_gyro e)) es = true ->
  last_stamp (run w es) = last_stamp w.
Proof.
  revert w. induction es as [|e es IH]; intros w Hes.
  - reflexivity.
  - cbn [forallb] in Hes. apply andb_true_iff in Hes. destruct Hes as [He Hes].
    cbn [run fold_left]. 
    change (last_stamp (run (dispatch w e) es) = last_stamp w).
    rewrite IH by exact Hes.
    destruct e; cbn [dispatch is_gyro negb] in *;
      [discriminate | apply accel_cb_last_stamp | apply mag_cb_last_stamp
       | apply aligner_cb_last_stamp].
Qed.

End Callbacks.

(* ================================================================== *)
(** * Covariance propagation and measurement update                    *)
(* ================================================================== *)

Section Covariance.

Context {lib : PprzLib} {cfg : Airframe}.

Lemma propagate_ref_P (a : AhrsMlkf) (gyro : Int32Rates) (dt : R) :
  P (propagate_ref a gyro dt) = P a.
Proof.
  unfold propagate_ref. cbv zeta.
  destruct AHRS_PROPAGATE_LOW_PASS_RATES; reflexivity.
Qed.

Lemma propagate_state_symmetric (a : AhrsMlkf) (dt : R) :
  symmetric 6 (P a) -> symmetric 6 (P (propagate_state a dt)).
Proof.
  intros HP i j Hi Hj. unfold symmetric in HP.
  rewrite propagate_state_P, !mget_of_mx by assumption.
  apply KalmanSpecFacts.propagate_symmetric; assumption.
Qed.

Lemma update_state_symmetric (a : AhrsMlkf)
      (i_expected b_measured noise : FloatVect3) :
  symmetric 6 (P a) ->
  symmetric 6 (P (update_state a i_expected b_measured noise)).
Proof.
  intros HP i j Hi Hj. unfold symmetric in HP.
  rewrite update_state_eq. cbn [P].
  rewrite !mget_of_mx by assumption.
  apply KalmanSpecFacts.update_symmetric; assumption.
Qed.

Lemma reset_state_P (a : AhrsMlkf) : P (reset_state a) = P a.
Proof. reflexivity. Qed.

(** C1. For every filter state, expected vector, measured vector and
    noise vector, [update_state] rotates the expected vector with the
    reference quaternion to get the predicted measurement, and leaves the
    filter as the Kalman update prescribes: with
    [H = [skew(predicted) | 0]] (zero bias columns),
    [S = H P H^T + diag(noise)], [K = P H^T S^-1] and
    [e = measured - predicted], the first three components of [K e] are
    added to the Gibbs error vector, the last three to the gyro bias, and
    [P] becomes [(I - K H) P]; nothing else changes. *)
Theorem update_state_kalman_update (a : AhrsMlkf)
        (i_expected b_measured noise : FloatVect3) :
  let predicted := float_quat_vmult (ltp_to_imu_quat a) i_expected in
  let H : MatSpec.mx :=
    fun i j => if Nat.ltb j 3 then MatSpec.skew predicted i j else 0 in
  let Pm := mget (P a) in
  let S := MatSpec.add (MatSpec.mul 6 (MatSpec.mul 6 H Pm) (MatSpec.tr H))
                       (MatSpec.diag3 noise) in
  let K := MatSpec.mul 3 (MatSpec.mul 6 Pm (MatSpec.tr H)) (MatSpec.inv3 S) in
  let e := {| vx := vx b_measured - vx predicted;
              vy := vy b_measured - vy predicted;
              vz := vz b_measured - vz predicted |} in
  (forall i j, H i (3 + j)%nat = 0)
  /\ update_state a i_expected b_measured noise
     = mkAhrsMlkf
         (ltp_to_imu_quat a) (imu_rate a)
         {| rp := rp (gyro_bias a) + MatSpec.mulv3 K e 3;
            rq := rq (gyro_bias a) + MatSpec.mulv3 K e 4;
            rr := rr (gyro_bias a) + MatSpec.mulv3 K e 5 |}
         (mag_h a) (mag_noise a)
         {| qi := qi (gibbs_cor a);
            qx := qx (gibbs_cor a) + MatSpec.mulv3 K e 0;
            qy := qy (gibbs_cor a) + MatSpec.mulv3 K e 1;
            qz := qz (gibbs_cor a) + MatSpec.mulv3 K e 2 |}
         (of_mx 6 6
            (MatSpec.mul 6 (MatSpec.sub MatSpec.id (MatSpec.mul 3 K H)) Pm))
         (lp_accel a) (status a) (body_to_imu a).
Proof.
  intros predicted H Pm S K e. split.
  - intros i j. reflexivity.
  - exact (update_state_eq a i_expected b_measured noise).
Qed.

(** C2. For every rate estimate and every [dt], [propagate_state]
    replaces [P] with [F P F^T + Q] and changes nothing else.  [F] has the
    attitude block [I - skew(rate * dt)], that is ones on the diagonal and
    the cross-coupling terms [+- rate_axis * dt] off it, the
    attitude-to-bias block [- dt * I], the bias block [I] and zeros
    elsewhere; [Q] is diagonal with three entries [dt^2 * 1e-2] followed
    by three entries [dt^2 * 9e-6]. *)
Theorem propagate_state_covariance (a : AhrsMlkf) (dt : R) :
  let w := imu_rate a in
  let F := MatSpec.block3
             (MatSpec.sub MatSpec.id
                (MatSpec.skew {| vx := rp w * dt; vy := rq w * dt;
                                 vz := rr w * dt |}))
             (MatSpec.scal (- dt) MatSpec.id) MatSpec.zero MatSpec.id in
  let Q := MatSpec.diag33 (dt * dt * 1e-2) (dt * dt * 9e-6) in
  propagate_state a dt
  = set_P a (of_mx 6 6
      (MatSpec.add
         (MatSpec.mul 6 (MatSpec.mul 6 F (mget (P a))) (MatSpec.tr F)) Q))
  /\ F 0%nat 1%nat = rr w * dt /\ F 0%nat 2%nat = - (rq w * dt)
  /\ F 1%nat 2%nat = rp w * dt /\ F 1%nat 0%nat = - (rr w * dt)
  /\ F 2%nat 0%nat = rq w * dt /\ F 2%nat 1%nat = - (rp w * dt).
Proof.
  intros w F Q. split.
  - pose proof (propagate_state_P a dt) as E.
    unfold propagate_state in *. cbv zeta in *.
    unfold set_P in *. cbn [P] in E. rewrite E. reflexivity.
  - unfold F, MatSpec.block3, MatSpec.sub, MatSpec.id, MatSpec.skew.
    cbn [Nat.ltb Nat.leb Nat.eqb vx vy vz].
    repeat split; ring.
Qed.

(** C4. If the covariance matrix [P] is symmetric, it is symmetric after
    the covariance propagation step, for every [dt] and every rate
    estimate (also the one a gyro sample has just produced), and after the
    measurement update, for all expected, measured and noise vectors (also
    in the accelerometer and magnetometer updates with their reset).
    Exact arithmetic. *)
Theorem covariance_symmetric_preserved (a : AhrsMlkf) :
  symmetric 6 (P a) ->
  (forall dt, symmetric 6 (P (propagate_state a dt)))
  /\ (forall gyro dt,
        symmetric 6 (P (propagate_state (propagate_ref a gyro dt) dt)))
  /\ (forall i_expected b_measured noise,
        symmetric 6 (P (update_state a i_expected b_measured noise)))
  /\ (forall accel, symmetric 6 (P (ahrs_mlkf_update_accel a accel)))
  /\ (forall mag, symmetric 6 (P (ahrs_mlkf_update_mag a mag))).
Proof.
  intros HP. repeat split.
  - intros dt. apply propagate_state_symmetric, HP.
  - intros gyro dt. apply propagate_state_symmetric.
    rewrite propagate_ref_P. exact HP.
  - intros ie bm noise. apply update_state_symmetric, HP.
  - intros accel. unfold ahrs_mlkf_update_accel. cbv zeta.
    rewrite reset_state_P. apply update_state_symmetric. exact HP.
  - intros mag. unfold ahrs_mlkf_update_mag. cbv zeta.
    rewrite reset_state_P. apply update_state_symmetric. exact HP.
Qed.

Lemma ahrs_mlkf_init_symmetric (a : AhrsMlkf) (b : OrientationReps) :
  symmetric 6 (P (ahrs_mlkf_init a b)).
Proof. intros i j Hi Hj. split_index i; split_index j; reflexivity. Qed.

Lemma ahrs_mlkf_propagate_P (w : World) (gyro : Int32Rates) (dt : R) :
  P (ahrs_mlkf (ahrs_mlkf_propagate w gyro dt))
  = P (propagate_state (propagate_ref (ahrs_mlkf w) gyro dt) dt).
Proof. reflexivity. Qed.

Lemma dispatch_symmetric (w : World) (e : Event) :
  symmetric 6 (P (ahrs_mlkf w)) ->
  symmetric 6 (P (ahrs_mlkf (dispatch w e))).
Proof.
  intros HP.
  assert (Hprop : forall dt gyro,
             symmetric 6 (P (ahrs_mlkf (ahrs_mlkf_propagate w gyro dt)))).
  { intros dt gyro. rewrite ahrs_mlkf_propagate_P.
    apply propagate_state_symmetric. rewrite propagate_ref_P. exact HP. }
  destruct e; cbn [dispatch].
  - unfold gyro_cb. destruct calculating_dt.
    + destruct ((0 <? last_stamp w)%Z && is_running w);
        cbn [set_last_stamp ahrs_mlkf]; [apply Hprop | exact HP].
    + destruct AHRS_PROPAGATE_FREQUENCY; [|exact HP].
      destruct (is_running w); [apply Hprop | exact HP].
  - unfold accel_cb. destruct (is_running w); [|exact HP].
    cbn [set_ahrs_mlkf ahrs_mlkf]. unfold ahrs_mlkf_update_accel. cbv zeta.
    rewrite reset_state_P. apply update_state_symmetric. exact HP.
  - unfold mag_cb. destruct (is_running w); [|exact HP].
    cbn [set_ahrs_mlkf ahrs_mlkf]. unfold ahrs_mlkf_update_mag. cbv zeta.
    rewrite reset_state_P. apply update_state_symmetric. exact HP.
  - unfold aligner_cb. destruct (is_running w); cbn [negb]; exact HP.
Qed.

(** The covariance of a freshly constructed filter is symmetric and stays
    so along every sequence of events. *)
Lemma run_symmetric (body_to_imu_p : OrientationReps) (st : State)
      (es : list Event) :
  symmetric 6 (P (ahrs_mlkf (run (world_init body_to_imu_p st) es))).
Proof.
  assert (G : forall w, symmetric 6 (P (ahrs_mlkf w)) ->
                        symmetric 6 (P (ahrs_mlkf (run w es)))).
  { induction es as [|e es IH]; intros w Hw.
    - exact Hw.
    - cbn [run fold_left]. apply IH, dispatch_symmetric, Hw. }
  apply G. apply ahrs_mlkf_init_symmetric.
Qed.
End Covariance.

(* ================================================================== *)
(** * Reset, unit norm and the accelerometer noise                     *)
(* ================================================================== *)

Lemma float_quat_norm_quat_unit : float_quat_norm quat_unit = 1.
Proof.
  unfold float_quat_norm, quat_unit. cbn [qi qx qy qz].
  replace (1 * 1 + 0 * 0 + 0 * 0 + 0 * 0) with 1 by ring.
  apply sqrt_1.
Qed.

Section Reset.

Context {lib : PprzLib} {cfg : Airframe}.

(** C3. Every error-state reset composes the reference quaternion with
    the Gibbs error vector taken with scalar part 2, renormalizes the
    composed quaternion (to length one whenever the reference quaternion
    is not zero), stores it as the new reference quaternion and leaves the
    Gibbs error vector at (scalar 2, vector zero); nothing else changes. *)
Theorem reset_state_folds_gibbs (a : AhrsMlkf) :
  let g := gibbs_cor a in
  let q_tmp :=
    float_quat_comp (ltp_to_imu_quat a)
                    {| qi := 2; qx := qx g; qy := qy g; qz := qz g |} in
  let n := float_quat_norm q_tmp in
  reset_state a
  = mkAhrsMlkf
      {| qi := qi q_tmp / n; qx := qx q_tmp / n;
         qy := qy q_tmp / n; qz := qz q_tmp / n |}
      (imu_rate a) (gyro_bias a) (mag_h a) (mag_noise a)
      {| qi := 2; qx := 0; qy := 0; qz := 0 |}
      (P a) (lp_accel a) (status a) (body_to_imu a)
  /\ (float_quat_norm (ltp_to_imu_quat a) <> 0 ->
      float_quat_norm (ltp_to_imu_quat (reset_state a)) = 1).
Proof.
  intros g q_tmp n. split.
  - reflexivity.
  - apply reset_state_unit.
Qed.

(** C5. For every filter whose reference quaternion is not the zero
    quaternion, the reference quaternion has norm 1 right after every
    error-state reset and right after every reference-quaternion
    propagation step, for every gyro sample and every [dt].  Exact
    arithmetic. *)
Theorem reference_quaternion_unit (a : AhrsMlkf) :
  float_quat_norm (ltp_to_imu_quat a) <> 0 ->
  float_quat_norm (ltp_to_imu_quat (reset_state a)) = 1
  /\ (forall gyro dt,
        float_quat_norm (ltp_to_imu_quat (propagate_ref a gyro dt)) = 1).
Proof.
  intros Hq. split.
  - apply reset_state_unit, Hq.
  - intros gyro dt. apply propagate_ref_unit, Hq.
Qed.

(** C6. On every accelerometer update the low-pass estimate becomes
    [0.92 * lp + 0.08 * (|measured| - 9.81)], the generic update is run
    with gravity [(0, 0, -9.81)] as expected vector and the noise variance
    [1 + 250 * |lp|] of the new estimate on all three axes, followed by
    the reset; a larger [|lp|] gives a strictly larger noise variance. *)
Theorem accel_noise_adaptive (a a' : AhrsMlkf) (accel accel' : Int32Vect3) :
  let lp_new (s : AhrsMlkf) (acc : Int32Vect3) :=
    0.92 * lp_accel s
    + 0.08 * (float_vect3_norm (ACCELS_FLOAT_OF_BFP acc) - 9.81) in
  let g_noise (lp : R) :=
    {| vx := 1 + 250 * Rabs lp; vy := 1 + 250 * Rabs lp;
       vz := 1 + 250 * Rabs lp |} in
  lp_accel (ahrs_mlkf_update_accel a accel) = lp_new a accel
  /\ ahrs_mlkf_update_accel a accel
     = reset_state
         (update_state (set_lp_accel a (lp_new a accel))
                       {| vx := 0; vy := 0; vz := - 9.81 |}
                       (ACCELS_FLOAT_OF_BFP accel)
                       (g_noise (lp_new a accel)))
  /\ (Rabs (lp_new a accel) < Rabs (lp_new a' accel') ->
      vx (g_noise (lp_new a accel)) < vx (g_noise (lp_new a' accel'))).
Proof.
  intros lp_new g_noise.
  assert (E : 0.92 * lp_accel a
              + (1 - 0.92)
                * (float_vect3_norm (ACCELS_FLOAT_OF_BFP accel) - 9.81)
              = lp_new a accel) by (unfold lp_new; lra).
  assert (E2 : ahrs_mlkf_update_accel a accel
     = reset_state
         (update_state (set_lp_accel a (lp_new a accel))
                       {| vx := 0; vy := 0; vz := - 9.81 |}
                       (ACCELS_FLOAT_OF_BFP accel)
                       (g_noise (lp_new a accel)))).
  { unfold ahrs_mlkf_update_accel. cbv zeta.
    cbn [lp_accel set_lp_accel]. rewrite E. reflexivity. }
  repeat split.
  - rewrite E2. reflexivity.
  - exact E2.
  - intros Hlt. cbn [vx g_noise]. lra.
Qed.

End Reset.

(* ================================================================== *)
(** * Events: timing, status and the body-frame projection             *)
(* ================================================================== *)

Section Events.

Context {lib : PprzLib} {cfg : Airframe}.

Lemma gyro_cb_calculating_dt (w : World) (stamp : Z) (gyro : Int32Rates) :
  calculating_dt = true ->
  gyro_cb w stamp gyro
  = set_last_stamp
      (if (0 <? last_stamp w)%Z && is_running w
       then ahrs_mlkf_propagate w gyro
              (IZR (sub_u32 stamp (last_stamp w)) * 1e-6)
       else w) stamp.
Proof. intros Hc. unfold gyro_cb. rewrite Hc. reflexivity. Qed.

(** With a fixed frequency no time stamp is kept and every sample
    received while running propagates. *)
Lemma gyro_cb_fixed_frequency (w : World) (stamp : Z) (gyro : Int32Rates)
      (freq : R) :
  calculating_dt = false -> AHRS_PROPAGATE_FREQUENCY = Some freq ->
  gyro_cb w stamp gyro
  = if is_running w then ahrs_mlkf_propagate w gyro (1 / freq) else w.
Proof. intros Hc Hf. unfold gyro_cb. rewrite Hc, Hf. reflexivity. Qed.

(** C7, when [dt] is computed from the time stamps.  The very first gyro
    sample received after construction, whatever other events came
    before it, triggers no propagation: the filter and the state
    interface are unchanged and only the time stamp is recorded.  A gyro
    sample does anything else than record its time stamp only when a
    prior time stamp is stored and the status is Running, and then it
    propagates with [dt] = the time elapsed since that stamp. *)
Theorem gyro_cb_computed_dt (body_to_imu_p : OrientationReps) (st : State)
        (es : list Event) (w : World) (stamp : Z) (gyro : Int32Rates) :
  calculating_dt = true ->
  forallb (fun e => negb (is_gyro e)) es = true ->
  (let w0 := run (world_init body_to_imu_p st) es in
   gyro_cb w0 stamp gyro = set_last_stamp w0 stamp)
  /\ (gyro_cb w stamp gyro <> set_last_stamp w stamp ->
      (0 < last_stamp w)%Z /\ status (ahrs_mlkf w) = AHRS_MLKF_RUNNING)
  /\ ((0 < last_stamp w)%Z -> status (ahrs_mlkf w) = AHRS_MLKF_RUNNING ->
      gyro_cb w stamp gyro
      = set_last_stamp
          (ahrs_mlkf_propagate w gyro
             (IZR (sub_u32 stamp (last_stamp w)) * 1e-6)) stamp).
Proof.
  intros Hc Hes. split; [|split].
  - cbv zeta. rewrite gyro_cb_calculating_dt by exact Hc.
    rewrite run_no_gyro_last_stamp by exact Hes.
    reflexivity.
  - intros Hne. rewrite gyro_cb_calculating_dt in Hne by exact Hc.
    destruct (0 <? last_stamp w)%Z eqn:E1;
      [|exfalso; apply Hne; reflexivity].
    destruct (is_running w) eqn:E2;
      [|exfalso; apply Hne; reflexivity].
    split; [apply Z.ltb_lt, E1 | apply is_running_true, E2].
  - intros Hl Hr. rewrite gyro_cb_calculating_dt by exact Hc.
    apply Z.ltb_lt in Hl. apply is_running_true in Hr.
    rewrite Hl, Hr. reflexivity.
Qed.

(** C8. Every event either keeps the filter status or is an alignment
    event that takes it from Uninitialized to Running; once Running, the
    status is Running after every sequence of events; and an alignment
    event delivered while Running changes nothing at all. *)
Theorem status_one_way (w : World) (e : Event) (es : list Event) :
  (status (ahrs_mlkf (dispatch w e)) = status (ahrs_mlkf w)
   \/ (is_lowpassed e = true
       /\ status (ahrs_mlkf w) = AHRS_MLKF_UNINIT
       /\ status (ahrs_mlkf (dispatch w e)) = AHRS_MLKF_RUNNING))
  /\ (status (ahrs_mlkf w) = AHRS_MLKF_RUNNING ->
      status (ahrs_mlkf (run w es)) = AHRS_MLKF_RUNNING)
  /\ (status (ahrs_mlkf w) = AHRS_MLKF_RUNNING ->
      is_lowpassed e = true -> dispatch w e = w).
Proof.
  repeat split.
  - destruct e; cbn [dispatch is_lowpassed].
    + left. apply gyro_cb_status.
    + left. apply accel_cb_status.
    + left. apply mag_cb_status.
    + unfold aligner_cb. destruct (is_running w) eqn:E; cbn [negb].
      * left. reflexivity.
      * right. repeat split.
        apply is_running_false, E.
  - apply run_running.
  - intros Hr He. destruct e; try discriminate.
    cbn [dispatch]. unfold aligner_cb.
    apply is_running_true in Hr. rewrite Hr. reflexivity.
Qed.

(** C9. The body-frame projection is executed by the propagation path and
    by alignment, each of which pushes the body quaternion and the body
    rates of the new filter state to the vehicle-state interface, and by
    nothing else: accelerometer and magnetometer events write nothing, so
    the published body-frame orientation and rates are the ones from
    before the event. *)
Theorem projection_only_on_propagate_and_align (w : World) :
  (forall gyro dt,
      state (ahrs_mlkf_propagate w gyro dt)
      = projection (ahrs_mlkf (ahrs_mlkf_propagate w gyro dt)) (state w))
  /\ (forall lp_gyro lp_accel_ev lp_mag,
        state (snd (ahrs_mlkf_align w lp_gyro lp_accel_ev lp_mag))
        = projection
            (ahrs_mlkf (snd (ahrs_mlkf_align w lp_gyro lp_accel_ev lp_mag)))
            (state w))
  /\ (forall stamp accel,
        state (accel_cb w stamp accel) = state w
        /\ stateGetNedToBodyQuat_f (state (accel_cb w stamp accel))
           = stateGetNedToBodyQuat_f (state w)
        /\ stateGetBodyRates_f (state (accel_cb w stamp accel))
           = stateGetBodyRates_f (state w))
  /\ (forall stamp mag,
        state (mag_cb w stamp mag) = state w
        /\ stateGetNedToBodyQuat_f (state (mag_cb w stamp mag))
           = stateGetNedToBodyQuat_f (state w)
        /\ stateGetBodyRates_f (state (mag_cb w stamp mag))
           = stateGetBodyRates_f (state w))
  /\ (forall e,
        state (dispatch w e) = state w
        \/ (is_accel_or_mag e = false
            /\ state (dispatch w e)
               = projection (ahrs_mlkf (dispatch w e)) (state w))).
Proof.
  split; [|split; [|split; [|split]]].
  - intros gyro dt. apply ahrs_mlkf_propagate_state.
  - intros lp_gyro lp_accel_ev lp_mag. apply ahrs_mlkf_align_state.
  - intros stamp accel. rewrite accel_cb_state. repeat split.
  - intros stamp mag. rewrite mag_cb_state. repeat split.
  - intros e. destruct e; cbn [dispatch is_accel_or_mag].
    + unfold gyro_cb. destruct calculating_dt.
      * destruct ((0 <? last_stamp w)%Z && is_running w);
          [right; split; reflexivity | left; reflexivity].
      * destruct AHRS_PROPAGATE_FREQUENCY; [|left; reflexivity].
        destruct (is_running w);
          [right; split; reflexivity | left; reflexivity].
    + left. apply accel_cb_state.
    + left. apply mag_cb_state.
    + unfold aligner_cb. destruct (is_running w); cbn [negb];
        [left; reflexivity | right; split; reflexivity].
Qed.

End Events.

(* ================================================================== *)
(** * The CHIMU attitude frames                                        *)
(* ================================================================== *)

Section Chimu.

Variables T L : Type.
Variable CHIMU_Parse :
  Z -> Z -> CHIMU_PARSER_DATA T -> bool * CHIMU_PARSER_DATA T.
Variable led_toggle : L -> L.





End Chimu.


(* ================================================================== *)
(** * The theorems on concrete inputs                                  *)
(* ================================================================== *)

Lemma filter_example_symmetric : symmetric 6 (P filter_example).
Proof. intros i j Hi Hj. split_index i; split_index j; reflexivity. Qed.

Lemma filter_example_norm :
  float_quat_norm (ltp_to_imu_quat filter_example) <> 0.
Proof.
  change (ltp_to_imu_quat filter_example) with quat_unit.
  rewrite float_quat_norm_quat_unit. lra.
Qed.

Lemma covariance_symmetric_preserved_witness :
  symmetric 6 (P filter_example)
  /\ symmetric 6 (P (propagate_state filter_example (1 / 512)))
  /\ symmetric 6
       (P (@update_state lib_example filter_example
             {| vx := 0; vy := 0; vz := - 9.81 |}
             {| vx := 0; vy := 0; vz := - 9.81 |}
             {| vx := 1; vy := 1; vz := 1 |})).
Proof.
  split.
  - exact filter_example_symmetric.
  - pose proof (@covariance_symmetric_preserved lib_example cfg_auto
                  filter_example filter_example_symmetric) as H.
    split.
    + exact (proj1 H (1 / 512)).
    + exact (proj1 (proj2 (proj2 H)) _ _ _).
Defined.

Lemma reference_quaternion_unit_witness :
  float_quat_norm (ltp_to_imu_quat filter_example) <> 0
  /\ float_quat_norm (ltp_to_imu_quat (reset_state filter_example)) = 1
  /\ float_quat_norm
       (ltp_to_imu_quat
          (@propagate_ref lib_example cfg_auto filter_example gyro_zero
                          (1 / 512))) = 1.
Proof.
  split.
  - exact filter_example_norm.
  - pose proof (@reference_quaternion_unit lib_example cfg_auto
                  filter_example filter_example_norm) as H.
    split.
    + exact (proj1 H).
    + exact (proj2 H gyro_zero (1 / 512)).
Defined.

Lemma reset_state_folds_gibbs_witness :
  float_quat_norm (ltp_to_imu_quat filter_example) <> 0
  /\ float_quat_norm (ltp_to_imu_quat (reset_state filter_example)) = 1.
Proof.
  split.
  - exact filter_example_norm.
  - apply (proj2 (reset_state_folds_gibbs filter_example)).
    exact filter_example_norm.
Defined.

Lemma float_vect3_norm_accel_zero :
  float_vect3_norm (@ACCELS_FLOAT_OF_BFP lib_example accel_zero) = 0.
Proof.
  unfold float_vect3_norm, ACCELS_FLOAT_OF_BFP, accel_zero.
  cbn [vx vy vz ivx ivy ivz ACCEL_FLOAT_OF_BFP lib_example].
  replace (0 / 1024 * (0 / 1024) + 0 / 1024 * (0 / 1024)
           + 0 / 1024 * (0 / 1024)) with 0 by field.
  apply sqrt_0.
Qed.

Lemma accel_noise_adaptive_witness :
  Rabs (lp_accel (@ahrs_mlkf_update_accel lib_example filter_example
                                          accel_zero))
  < Rabs (lp_accel (@ahrs_mlkf_update_accel lib_example
                      (set_lp_accel filter_example (-1)) accel_zero))
  /\ 1 + 250 * Rabs (0.92 * 0 + 0.08 * (0 - 9.81))
     < 1 + 250 * Rabs (0.92 * -1 + 0.08 * (0 - 9.81)).
Proof.
  pose proof (@accel_noise_adaptive lib_example filter_example
                (set_lp_accel filter_example (-1)) accel_zero accel_zero) as T.
  pose proof (@accel_noise_adaptive lib_example
                (set_lp_accel filter_example (-1)) filter_example
                accel_zero accel_zero) as T'.
  cbv beta zeta in T, T'.
  rewrite float_vect3_norm_accel_zero in T, T'.
  cbn [lp_accel set_lp_accel vx] in T, T'.
  change (lp_accel filter_example) with 0 in T, T'.
  assert (H : Rabs (0.92 * 0 + 0.08 * (0 - 9.81))
              < Rabs (0.92 * -1 + 0.08 * (0 - 9.81))).
  { rewrite !Rabs_left by lra. lra. }
  split.
  - rewrite (proj1 T), (proj1 T'). exact H.
  - exact (proj2 (proj2 T) H).
Defined.

Lemma gyro_cb_computed_dt_witness :
  @calculating_dt cfg_auto = true
  /\ forallb (fun e => negb (is_gyro e)) es_example = true
  /\ (let w0 := @run lib_example cfg_auto
                     (@world_init cfg_auto body_to_imu_example []) es_example in
      @gyro_cb lib_example cfg_auto w0 1000 gyro_zero
      = set_last_stamp w0 1000).
Proof.
  split; [reflexivity|]. split; [reflexivity|].
  exact (proj1 (@gyro_cb_computed_dt lib_example cfg_auto body_to_imu_example
                  [] es_example (@world_init cfg_auto body_to_imu_example [])
                  1000%Z gyro_zero eq_refl eq_refl)).
Defined.

Lemma status_one_way_witness :
  status (ahrs_mlkf world_running) = AHRS_MLKF_RUNNING
  /\ is_lowpassed (IMU_LOWPASSED 20 gyro_zero accel_zero mag_north) = true
  /\ @dispatch lib_example cfg_auto world_running
       (IMU_LOWPASSED 20 gyro_zero accel_zero mag_north) = world_running
  /\ status (ahrs_mlkf (@run lib_example cfg_auto world_running es_example))
     = AHRS_MLKF_RUNNING.
Proof.
  pose proof (@status_one_way lib_example cfg_auto world_running
                (IMU_LOWPASSED 20 gyro_zero accel_zero mag_north)
                es_example) as T.
  split; [reflexivity|]. split; [reflexivity|]. split.
  - exact (proj2 (proj2 T) eq_refl eq_refl).
  - exact (proj1 (proj2 T) eq_refl).
Defined.



Lemma gyro_cb_world_aligned_fixed :
  @gyro_cb lib_example cfg_fixed world_aligned_fixed 1000 gyro_zero
  = @ahrs_mlkf_propagate lib_example cfg_fixed world_aligned_fixed gyro_zero
                         (1 / 512).
Proof. reflexivity. Qed.

Lemma imu_rate_world_aligned_fixed :
  imu_rate (@propagate_ref lib_example cfg_fixed
              (ahrs_mlkf world_aligned_fixed) gyro_zero (1 / 512))
  = {| rp := 0; rq := 0; rr := 0 |}.
Proof.
  change (imu_rate (@propagate_ref lib_example cfg_fixed
                      (ahrs_mlkf world_aligned_fixed) gyro_zero (1 / 512)))
    with {| rp := 0 / 4096 - 0 / 4096; rq := 0 / 4096 - 0 / 4096;
            rr := 0 / 4096 - 0 / 4096 |}.
  f_equal; lra.
Qed.

(** C7 as stated fails in the build with a fixed
    [AHRS_PROPAGATE_FREQUENCY] of 512 Hz: the first gyro sample after
    construction, received after the alignment event, propagates; the
    covariance entry [P[0][0]] goes from 1 to [1 + dt^2 * (1e-4 + 1e-2)] and
    the state interface receives new values. *)
Lemma first_gyro_sample_propagates_fixed_frequency :
  last_stamp world_aligned_fixed = 0%Z
  /\ mget (P (ahrs_mlkf world_aligned_fixed)) 0 0 = 1
  /\ mget (P (ahrs_mlkf (@gyro_cb lib_example cfg_fixed world_aligned_fixed
                                  1000 gyro_zero))) 0 0
     = 1 + (1 / 512) * (1 / 512) * 1e-4 + (1 / 512) * (1 / 512) * 1e-2
  /\ state (@gyro_cb lib_example cfg_fixed world_aligned_fixed 1000 gyro_zero)
     <> state world_aligned_fixed.
Proof.
  split; [reflexivity|]. split; [reflexivity|].
  rewrite gyro_cb_world_aligned_fixed.
  split.
  - change (P (ahrs_mlkf (@ahrs_mlkf_propagate lib_example cfg_fixed
                            world_aligned_fixed gyro_zero (1 / 512))))
      with (P (propagate_state
                 (@propagate_ref lib_example cfg_fixed
                    (ahrs_mlkf world_aligned_fixed) gyro_zero (1 / 512))
                 (1 / 512))).
    rewrite propagate_state_P, mget_of_mx by lia.
    rewrite propagate_ref_P, imu_rate_world_aligned_fixed.
    unfold KalmanSpec.propagate, MatSpec.add, MatSpec.mul, MatSpec.tr,
      KalmanSpec.Q, MatSpec.diag33, MatSpec.diag, KalmanSpec.F,
      MatSpec.block3, MatSpec.sub, MatSpec.scal, MatSpec.id, MatSpec.zero,
      MatSpec.skew, KalmanSpec.rate_dt.
    cbn [MatSpec.big_sum Nat.ltb Nat.leb Nat.eqb Nat.sub vx vy vz rp rq rr].
    change (mget (P (ahrs_mlkf world_aligned_fixed))) with
      (mget (P (@ahrs_mlkf_init cfg_fixed ahrs_mlkf_bss body_to_imu_example))).
    unfold mget. cbn [P ahrs_mlkf_init set_P set_mag_noise nth].
    lra.
  - rewrite ahrs_mlkf_propagate_state. unfold projection.
    intros E. apply (f_equal (@length StateWrite)) in E.
    cbn [length] in E. lia.
Qed.

(* ================================================================== *)
(** * Further properties of the event handling                         *)
(* ================================================================== *)

Section EventsMore.

Context {lib : PprzLib} {cfg : Airframe}.

Lemma calculating_dt_false_frequency :
  calculating_dt = false -> exists freq, AHRS_PROPAGATE_FREQUENCY = Some freq.
Proof.
  unfold calculating_dt. intros H. apply orb_false_iff in H.
  destruct H as [_ H]. destruct AHRS_PROPAGATE_FREQUENCY as [f|].
  - exists f. reflexivity.
  - discriminate.
Qed.

Lemma ahrs_mlkf_propagate_last_stamp w gyro dt :
  last_stamp (ahrs_mlkf_propagate w gyro dt) = last_stamp w.
Proof. reflexivity. Qed.

Lemma dispatch_uninit (w : World) (e : Event) :
  status (ahrs_mlkf w) = AHRS_MLKF_UNINIT ->
  is_lowpassed e = false ->
  ahrs_mlkf (dispatch w e) = ahrs_mlkf w /\ state (dispatch w e) = state w.
Proof.
  intros Hu He. apply is_running_false in Hu.
  destruct e; cbn [dispatch is_lowpassed] in *; try discriminate.
  - unfold gyro_cb. rewrite Hu, andb_false_r.
    destruct calculating_dt; [split; reflexivity|].
    destruct AHRS_PROPAGATE_FREQUENCY; split; reflexivity.
  - unfold accel_cb. rewrite Hu. split; reflexivity.
  - unfold mag_cb. rewrite Hu. split; reflexivity.
Qed.

(** X1.  Until the alignment event arrives the filter ignores its sensors:
    along every sequence of gyro, accelerometer and magnetometer events
    delivered to an Uninitialized filter, the filter structure and the
    vehicle-state interface stay exactly as they were (only the time stamp
    of the last gyro sample may be recorded). *)
Theorem sensors_ignored_before_alignment (w : World) (es : list Event) :
  status (ahrs_mlkf w) = AHRS_MLKF_UNINIT ->
  forallb (fun e => negb (is_lowpassed e)) es = true ->
  ahrs_mlkf (run w es) = ahrs_mlkf w /\ state (run w es) = state w.
Proof.
  revert w. induction es as [|e es IH]; intros w Hu Hes.
  - split; reflexivity.
  - cbn [forallb] in Hes. apply andb_true_iff in Hes.
    destruct Hes as [He Hes]. apply negb_true_iff in He.
    destruct (dispatch_uninit w e Hu He) as [Ea Es].
    change (run w (e :: es)) with (run (dispatch w e) es).
    destruct (IH (dispatch w e)) as [Ea' Es'].
    + rewrite Ea. exact Hu.
    + exact Hes.
    + rewrite Ea', Es'. split; assumption.
Qed.

(** X2.  The static [last_stamp] always holds the time stamp of the most
    recent gyro sample when [dt] is computed from the time stamps, whatever
    the status and the other events; in the fixed-frequency build it is
    never written. *)
Theorem last_stamp_tracks_gyro (w : World) (es : list Event) :
  last_stamp (run w es)
  = if calculating_dt then last_gyro_stamp (last_stamp w) es
    else last_stamp w.
Proof.
  revert w. induction es as [|e es IH]; intros w.
  - cbn. destruct calculating_dt; reflexivity.
  - change (run w (e :: es)) with (run (dispatch w e) es).
    rewrite IH.
    change (last_gyro_stamp (last_stamp w) (e :: es))
      with (last_gyro_stamp
              (match e with IMU_GYRO_INT32 stamp _ => stamp
                          | _ => last_stamp w end) es).
    destruct e; cbn [dispatch].
    + unfold gyro_cb. destruct calculating_dt eqn:Hc.
      * reflexivity.
      * destruct AHRS_PROPAGATE_FREQUENCY; [|reflexivity].
        destruct (is_running w); reflexivity.
    + rewrite accel_cb_last_stamp. reflexivity.
    + rewrite mag_cb_last_stamp. reflexivity.
    + rewrite aligner_cb_last_stamp. reflexivity.
Qed.

Lemma dispatch_fixed_state_length (w : World) (e : Event) :
  calculating_dt = false ->
  status (ahrs_mlkf w) = AHRS_MLKF_RUNNING ->
  length (state (dispatch w e))
  = (length (state w) + if is_gyro e then 2 else 0)%nat.
Proof.
  intros Hc Hr. destruct (calculating_dt_false_frequency Hc) as [f Hf].
  apply is_running_true in Hr.
  destruct e; cbn [dispatch is_gyro].
  - rewrite (gyro_cb_fixed_frequency w stamp gyro f Hc Hf), Hr.
    rewrite ahrs_mlkf_propagate_state. unfold projection. cbn [length]. lia.
  - rewrite accel_cb_state. lia.
  - rewrite mag_cb_state. lia.
  - unfold aligner_cb. rewrite Hr. cbn [negb]. lia.
Qed.

(** X3.  In the fixed-frequency build a Running filter publishes once per
    gyro sample and never otherwise: after any sequence of events the
    vehicle-state interface has received exactly two values (body
    quaternion and body rates) per gyro sample of the sequence. *)
Theorem fixed_frequency_publishes_per_gyro (w : World) (es : list Event) :
  calculating_dt = false ->
  status (ahrs_mlkf w) = AHRS_MLKF_RUNNING ->
  length (state (run w es)) = (length (state w) + 2 * count_gyro es)%nat.
Proof.
  intros Hc. revert w. induction es as [|e es IH]; intros w Hr.
  - cbn. lia.
  - change (run w (e :: es)) with (run (dispatch w e) es).
    rewrite IH by (apply dispatch_running; exact Hr).
    rewrite dispatch_fixed_state_length by assumption.
    unfold count_gyro. cbn [filter].
    destruct (is_gyro e); cbn [length]; lia.
Qed.

(** X4.  With [dt] taken from the time stamps, a Running filter with a
    stored stamp propagates with [dt] = the unsigned 32-bit difference of
    the stamps in seconds: it is never negative and below 4294.967296 s,
    it is the elapsed time when the stamp did not go backwards, and when
    the stamp went backwards (counter wrap or discontinuity) the sample is
    not skipped but propagated with the difference plus 2^32 us. *)
Theorem gyro_cb_dt_wraps (w : World) (stamp : Z) (gyro : Int32Rates) :
  calculating_dt = true ->
  status (ahrs_mlkf w) = AHRS_MLKF_RUNNING ->
  (0 < last_stamp w < 2 ^ 32)%Z -> (0 <= stamp < 2 ^ 32)%Z ->
  exists dt,
    gyro_cb w stamp gyro
    = set_last_stamp (ahrs_mlkf_propagate w gyro dt) stamp
    /\ 0 <= dt < 4294.967296
    /\ ((last_stamp w <= stamp)%Z ->
        dt = IZR (stamp - last_stamp w) * 1e-6)
    /\ ((stamp < last_stamp w)%Z ->
        dt = IZR (stamp - last_stamp w + 2 ^ 32) * 1e-6).
Proof.
  intros Hc Hr Hl Hs.
  exists (IZR (sub_u32 stamp (last_stamp w)) * 1e-6).
  assert (Hm : (0 <= sub_u32 stamp (last_stamp w) < 2 ^ 32)%Z)
    by (unfold sub_u32; apply Z.mod_pos_bound; lia).
  split; [|split; [|split]].
  - rewrite gyro_cb_calculating_dt by exact Hc.
    apply is_running_true in Hr. rewrite Hr.
    destruct (Z.ltb_spec 0 (last_stamp w)) as [_|Hn]; [reflexivity | lia].
  - destruct Hm as [Hm0 Hm1].
    apply IZR_le in Hm0. apply IZR_lt in Hm1.
    change (2 ^ 32)%Z with 4294967296%Z in Hm1. lra.
  - intros Hle. unfold sub_u32. f_equal. f_equal. apply Z.mod_small. lia.
  - intros Hlt. unfold sub_u32.
    f_equal. f_equal.
    rewrite <- (Z.mod_add _ 1) by lia.
    apply Z.mod_small. lia.
Qed.

(** X5.  Prediction and correction work on separate parts of the filter: a
    gyro event never changes the gyro bias, the Gibbs error vector, the
    accelerometer low-pass, the magnetic reference or the status, and an
    accelerometer or magnetometer event never changes the rate estimate,
    the magnetic reference, the status or the stored time stamp. *)
Theorem predict_correct_frames (w : World) (stamp : Z) (gyro : Int32Rates)
        (v : Int32Vect3) :
  (let a' := ahrs_mlkf (gyro_cb w stamp gyro) in
   gyro_bias a' = gyro_bias (ahrs_mlkf w)
   /\ gibbs_cor a' = gibbs_cor (ahrs_mlkf w)
   /\ lp_accel a' = lp_accel (ahrs_mlkf w)
   /\ mag_h a' = mag_h (ahrs_mlkf w)
   /\ mag_noise a' = mag_noise (ahrs_mlkf w))
  /\ (let a' := ahrs_mlkf (accel_cb w stamp v) in
      imu_rate a' = imu_rate (ahrs_mlkf w)
      /\ mag_h a' = mag_h (ahrs_mlkf w)
      /\ mag_noise a' = mag_noise (ahrs_mlkf w))
  /\ (let a' := ahrs_mlkf (mag_cb w stamp v) in
      imu_rate a' = imu_rate (ahrs_mlkf w)
      /\ lp_accel a' = lp_accel (ahrs_mlkf w)
      /\ mag_h a' = mag_h (ahrs_mlkf w)
      /\ mag_noise a' = mag_noise (ahrs_mlkf w)).
Proof.
  assert (Hp : forall dt,
    let a' := ahrs_mlkf (ahrs_mlkf_propagate w gyro dt) in
    gyro_bias a' = gyro_bias (ahrs_mlkf w)
    /\ gibbs_cor a' = gibbs_cor (ahrs_mlkf w)
    /\ lp_accel a' = lp_accel (ahrs_mlkf w)
    /\ mag_h a' = mag_h (ahrs_mlkf w)
    /\ mag_noise a' = mag_noise (ahrs_mlkf w)).
  { intros dt. unfold ahrs_mlkf_propagate, propagate_state, propagate_ref.
    cbv zeta. destruct AHRS_PROPAGATE_LOW_PASS_RATES; repeat split. }
  split; [|split].
  - unfold gyro_cb. destruct calculating_dt.
    + destruct ((0 <? last_stamp w)%Z && is_running w);
        cbn [set_last_stamp ahrs_mlkf]; [apply Hp | repeat split].
    + destruct AHRS_PROPAGATE_FREQUENCY; [|repeat split].
      destruct (is_running w); [apply Hp | repeat split].
  - unfold accel_cb. destruct (is_running w); repeat split.
  - unfold mag_cb. destruct (is_running w); repeat split.
Qed.

(** X22.  Gyro samples received before alignment still arm the timing: the
    stamp of a sample taken while Uninitialized is kept through the
    alignment event, so the first gyro sample after alignment propagates,
    with [dt] measured from the last sample before alignment. *)
Theorem first_gyro_after_alignment (w : World) (s1 s2 sa : Z)
        (g1 g2 lp_gyro : Int32Rates) (lp_accel_ev lp_mag : Int32Vect3) :
  calculating_dt = true ->
  status (ahrs_mlkf w) = AHRS_MLKF_UNINIT ->
  (0 < s1)%Z ->
  let w1 := aligner_cb (gyro_cb w s1 g1) sa lp_gyro lp_accel_ev lp_mag in
  gyro_cb w1 s2 g2
  = set_last_stamp
      (ahrs_mlkf_propagate w1 g2 (IZR (sub_u32 s2 s1) * 1e-6)) s2.
Proof.
  intros Hc Hu Hs w1.
  assert (Hl : last_stamp w1 = s1).
  { unfold w1. rewrite aligner_cb_last_stamp.
    rewrite gyro_cb_calculating_dt by exact Hc. reflexivity. }
  assert (Hr : is_running w1 = true).
  { unfold w1, aligner_cb.
    assert (Hu' : is_running (gyro_cb w s1 g1) = false).
    { apply is_running_false. rewrite gyro_cb_status. exact Hu. }
    rewrite Hu'. reflexivity. }
  rewrite gyro_cb_calculating_dt by exact Hc.
  rewrite Hl, Hr.
  destruct (Z.ltb_spec 0 s1) as [_|Hn]; [reflexivity | lia].
Qed.

(** X23.  A gyro sample stamped 0 disarms the timing: the stamp 0 stands
    for "no sample yet", so the sample that follows it is dropped like a
    first sample, whatever the status. *)
Theorem gyro_stamp_zero_disarms (w : World) (s2 : Z) (g1 g2 : Int32Rates) :
  calculating_dt = true ->
  gyro_cb (gyro_cb w 0 g1) s2 g2 = set_last_stamp (gyro_cb w 0 g1) s2.
Proof.
  intros Hc.
  rewrite (gyro_cb_calculating_dt (gyro_cb w 0 g1) s2 g2 Hc).
  assert (Hl : last_stamp (gyro_cb w 0 g1) = 0%Z).
  { rewrite gyro_cb_calculating_dt by exact Hc. reflexivity. }
  rewrite Hl. reflexivity.
Qed.

End EventsMore.

(* ================================================================== *)
(** * Further properties of the covariance steps                       *)
(* ================================================================== *)

Section CovarianceMore.

Context {lib : PprzLib}.

(** The rows 3 to 5 of [F] are unit vectors. *)
Lemma F_bias_rows (w : FloatRates) (dt : R) (i k : nat) :
  (3 <= i < 6)%nat -> (k < 6)%nat ->
  KalmanSpec.F w dt i k = MatSpec.id i k.
Proof.
  intros Hi Hk.
  split_index i; split_index k;
    unfold KalmanSpec.F, MatSpec.block3, MatSpec.zero, MatSpec.id;
    reflexivity.
Qed.

(** X6.  Covariance propagation leaves the bias block of [P] alone except
    for the random-walk noise: for every rate estimate and every [dt], the
    entries with both indices in 3..5 are the old ones, plus
    [dt^2 * 9e-6] on the diagonal. *)
Theorem propagate_state_bias_block (a : AhrsMlkf) (dt : R) (i j : nat) :
  (3 <= i < 6)%nat -> (3 <= j < 6)%nat ->
  mget (P (propagate_state a dt)) i j
  = mget (P a) i j + (if Nat.eqb i j then dt * dt * 9e-6 else 0).
Proof.
  intros Hi Hj.
  rewrite propagate_state_P, mget_of_mx by lia.
  unfold KalmanSpec.propagate, MatSpec.add.
  f_equal.
  - transitivity (MatSpec.mul 6 (MatSpec.mul 6 MatSpec.id (mget (P a)))
                              MatSpec.id i j).
    + apply mul_ext; intros k Hk.
      * apply mul_ext; intros l Hl; [apply F_bias_rows; lia | reflexivity].
      * unfold MatSpec.tr. rewrite F_bias_rows by lia.
        unfold MatSpec.id. apply f_equal with (f := fun b : bool => if b then 1 else 0).
        apply Nat.eqb_sym.
    + rewrite MatSpecFacts.mul_id_r by lia.
      apply MatSpecFacts.mul_id_l. lia.
  - unfold KalmanSpec.Q, MatSpec.diag33, MatSpec.diag.
    destruct (Nat.eqb i j); [|reflexivity].
    destruct (Nat.ltb_spec i 3); [lia | reflexivity].
Qed.

Lemma F_zero_dt (w : FloatRates) (i k : nat) :
  (i < 6)%nat -> (k < 6)%nat -> KalmanSpec.F w 0 i k = MatSpec.id i k.
Proof.
  intros Hi Hk.
  split_index i; split_index k;
    unfold KalmanSpec.F, MatSpec.block3, MatSpec.sub, MatSpec.scal,
      MatSpec.zero, MatSpec.id, MatSpec.skew, KalmanSpec.rate_dt;
    cbn [Nat.ltb Nat.leb Nat.eqb Nat.sub vx vy vz]; ring.
Qed.

(** X7.  Propagating the covariance over [dt = 0] (two gyro samples with
    the same time stamp) changes no entry of [P]. *)
Theorem propagate_state_zero_dt (a : AhrsMlkf) (i j : nat) :
  (i < 6)%nat -> (j < 6)%nat ->
  mget (P (propagate_state a 0)) i j = mget (P a) i j.
Proof.
  intros Hi Hj.
  rewrite propagate_state_P, mget_of_mx by lia.
  unfold KalmanSpec.propagate, MatSpec.add.
  transitivity (MatSpec.mul 6 (MatSpec.mul 6 MatSpec.id (mget (P a)))
                            MatSpec.id i j + 0).
  - f_equal.
    + apply mul_ext; intros k Hk.
      * apply mul_ext; intros l Hl; [apply F_zero_dt; lia | reflexivity].
      * unfold MatSpec.tr. rewrite F_zero_dt by lia.
        unfold MatSpec.id.
        apply f_equal with (f := fun b : bool => if b then 1 else 0).
        apply Nat.eqb_sym.
    + unfold KalmanSpec.Q, MatSpec.diag33, MatSpec.diag.
      destruct (Nat.eqb i j); [|reflexivity].
      destruct (Nat.ltb i 3); lra.
  - rewrite MatSpecFacts.mul_id_r, MatSpecFacts.mul_id_l by lia. ring.
Qed.

(** X8.  For a symmetric [P] the measurement update subtracts
    [(H P)^T S^-1 (H P)] from [P]: the covariance is corrected by a term
    built from the innovation covariance alone, whatever the measured
    vector is. *)
Theorem update_state_covariance_reduction (a : AhrsMlkf)
        (i_expected b_measured noise : FloatVect3) (i j : nat) :
  symmetric 6 (P a) -> (i < 6)%nat -> (j < 6)%nat ->
  let predicted := float_quat_vmult (ltp_to_imu_quat a) i_expected in
  let HP := MatSpec.mul 6 (KalmanSpec.H predicted) (mget (P a)) in
  let Sinv := MatSpec.inv3 (KalmanSpec.S predicted noise (mget (P a))) in
  mget (P (update_state a i_expected b_measured noise)) i j
  = mget (P a) i j
    - MatSpec.mul 3 (MatSpec.mul 3 (MatSpec.tr HP) Sinv) HP i j.
Proof.
  intros HPs Hi Hj predicted HP Sinv.
  rewrite update_state_eq. cbn [P].
  rewrite mget_of_mx by assumption.
  apply KalmanSpecFacts.update_entry; assumption.
Qed.

(** The gain has zero bias rows when bias and attitude errors are
    uncorrelated. *)
Lemma K_bias_rows_zero (b noise : FloatVect3) (A : matrix) (i c : nat) :
  bias_attitude_uncorrelated A -> (3 <= i < 6)%nat ->
  KalmanSpec.K b noise (mget A) i c = 0.
Proof.
  intros HA Hi. unfold KalmanSpec.K, MatSpec.mul at 1.
  rewrite big_sum_ext with (g := fun _ => 0); [apply big_sum_zero|].
  intros k Hk.
  replace (MatSpec.mul 6 (mget A) (MatSpec.tr (KalmanSpec.H b)) i k) with 0;
    [ring|].
  symmetry. unfold MatSpec.mul.
  rewrite big_sum_ext with (g := fun _ => 0); [apply big_sum_zero|].
  intros l Hl. unfold MatSpec.tr, KalmanSpec.H.
  destruct (Nat.ltb_spec l 3) as [Hl3|Hl3].
  - rewrite (HA i l Hi Hl3). ring.
  - ring.
Qed.

(** X9.  When the bias errors are uncorrelated with the attitude errors (as
    right after [ahrs_mlkf_init], whose [P] is diagonal), a measurement
    update cannot correct the gyro bias: the bias estimate and the bias
    rows of [P] come out unchanged, whatever is measured. *)
Theorem update_state_uncorrelated_bias (a : AhrsMlkf)
        (i_expected b_measured noise : FloatVect3) :
  bias_attitude_uncorrelated (P a) ->
  gyro_bias (update_state a i_expected b_measured noise) = gyro_bias a
  /\ (forall i j, (3 <= i < 6)%nat -> (j < 6)%nat ->
        mget (P (update_state a i_expected b_measured noise)) i j
        = mget (P a) i j)
  /\ bias_attitude_uncorrelated
       (P (update_state a i_expected b_measured noise)).
Proof.
  intros HA.
  assert (HP : forall i j, (3 <= i < 6)%nat -> (j < 6)%nat ->
        mget (P (update_state a i_expected b_measured noise)) i j
        = mget (P a) i j).
  { rewrite update_state_eq. cbn [P].
    intros i j Hi Hj. rewrite mget_of_mx by lia.
    unfold KalmanSpec.update.
    rewrite MatSpecFacts.mul_sub_distr_r, MatSpecFacts.mul_id_l by lia.
    rewrite MatSpecFacts.mul_assoc.
    unfold MatSpec.mul at 1.
    rewrite big_sum_ext with (g := fun _ => 0).
    + rewrite big_sum_zero. ring.
    + intros k Hk. rewrite K_bias_rows_zero by assumption. ring. }
  split; [|split; [exact HP|]].
  2:{ intros i l Hi Hl. rewrite HP by lia. apply HA; assumption. }
  rewrite update_state_eq. cbn [gyro_bias].
  unfold MatSpec.mulv3.
  rewrite !(K_bias_rows_zero _ _ (P a)) by (exact HA || lia).
  destruct (gyro_bias a) as [p q r]. cbn [rp rq rr]. f_equal; ring.
Qed.

(** The gain applied to a zero innovation is zero. *)
Lemma mulv3_zero_innovation (K : MatSpec.mx) (b : FloatVect3) (i : nat) :
  MatSpec.mulv3 K (VECT3_DIFF b b) i = 0.
Proof. unfold MatSpec.mulv3, VECT3_DIFF. cbn [vx vy vz]. ring. Qed.

Lemma update_state_predicted_gibbs (a : AhrsMlkf)
      (i_expected noise : FloatVect3) :
  gibbs_cor (update_state a i_expected
               (float_quat_vmult (ltp_to_imu_quat a) i_expected) noise)
  = gibbs_cor a.
Proof.
  rewrite update_state_eq. cbn [gibbs_cor].
  rewrite !mulv3_zero_innovation.
  destruct (gibbs_cor a) as [i x y z]. cbn [qi qx qy qz]. f_equal; ring.
Qed.

(** X10.  A measurement that equals the predicted one gives no state
    correction: the Gibbs error vector and the gyro bias are unchanged
    (the covariance is still updated). *)
Theorem update_state_zero_innovation (a : AhrsMlkf)
        (i_expected b_measured noise : FloatVect3) :
  b_measured = float_quat_vmult (ltp_to_imu_quat a) i_expected ->
  gibbs_cor (update_state a i_expected b_measured noise) = gibbs_cor a
  /\ gyro_bias (update_state a i_expected b_measured noise) = gyro_bias a.
Proof.
  intros ->. split.
  - apply update_state_predicted_gibbs.
  - rewrite update_state_eq. cbn [gyro_bias].
    rewrite !mulv3_zero_innovation.
    destruct (gyro_bias a) as [p q r]. cbn [rp rq rr]. f_equal; ring.
Qed.

(** X24.  The covariance correction does not look at the measurement: two
    updates that differ only in the measured vector leave the same [P]
    (the measured vector only moves the Gibbs error vector and the
    bias). *)
Theorem update_state_covariance_ignores_measurement (a : AhrsMlkf)
        (i_expected b_measured b_measured' noise : FloatVect3) :
  P (update_state a i_expected b_measured noise)
  = P (update_state a i_expected b_measured' noise).
Proof. rewrite !update_state_eq. reflexivity. Qed.

(** X20.  Construction restores the covariance invariants whatever the
    structure held before: after [ahrs_mlkf_init] the status is
    Uninitialized, bias and rate estimate are zero, [P] is symmetric with a
    positive diagonal and no correlation between bias and attitude errors;
    and initialising twice is the same as once. *)
Theorem ahrs_mlkf_init_establishes {cfg : Airframe} (a : AhrsMlkf)
        (body_to_imu_p : OrientationReps) :
  let a' := ahrs_mlkf_init a body_to_imu_p in
  status a' = AHRS_MLKF_UNINIT
  /\ gyro_bias a' = {| rp := 0; rq := 0; rr := 0 |}
  /\ imu_rate a' = {| rp := 0; rq := 0; rr := 0 |}
  /\ symmetric 6 (P a')
  /\ bias_attitude_uncorrelated (P a')
  /\ (forall i, (i < 6)%nat -> 0 < mget (P a') i i)
  /\ ahrs_mlkf_init a' body_to_imu_p = a'.
Proof.
  cbv zeta. split; [reflexivity|]. split; [reflexivity|].
  split; [reflexivity|]. split; [|split; [|split]].
  - intros i j Hi Hj. split_index i; split_index j; reflexivity.
  - intros i l Hi Hl. split_index i; split_index l; reflexivity.
  - intros i Hi. split_index i; unfold mget; cbn [P ahrs_mlkf_init set_P set_mag_noise nth]; lra.
  - reflexivity.
Qed.

(** X21.  Symmetry of the covariance is an invariant of the whole event
    loop: a filter with a symmetric [P], in particular a freshly
    constructed one, has a symmetric [P] after every sequence of gyro,
    accelerometer, magnetometer and alignment events.  Exact arithmetic. *)
Theorem run_keeps_symmetric {cfg : Airframe} (w : World) (es : list Event) :
  symmetric 6 (P (ahrs_mlkf w)) ->
  symmetric 6 (P (ahrs_mlkf (run w es))).
Proof.
  revert w. induction es as [|e es IH]; intros w Hw.
  - exact Hw.
  - change (run w (e :: es)) with (run (dispatch w e) es).
    apply IH, dispatch_symmetric, Hw.
Qed.

End CovarianceMore.

(* ================================================================== *)
(** * Further properties of reset and reference propagation            *)
(* ================================================================== *)

(** Folding in an error quaternion with zero vector part gives back a unit
    quaternion. *)
Lemma normalize_comp_scalar (q : FloatQuat) (s : R) :
  0 < s -> float_quat_norm q = 1 ->
  float_quat_normalize
    (float_quat_comp q {| qi := s; qx := 0; qy := 0; qz := 0 |}) = q.
Proof.
  intros Hs Hq.
  assert (Hn : float_quat_norm
                 (float_quat_comp q {| qi := s; qx := 0; qy := 0; qz := 0 |})
               = s).
  { rewrite float_quat_norm_comp, Hq.
    unfold float_quat_norm. cbn [qi qx qy qz].
    replace (s * s + 0 * 0 + 0 * 0 + 0 * 0) with (s * s) by ring.
    rewrite sqrt_square by lra. ring. }
  unfold float_quat_normalize. cbv zeta. rewrite Hn.
  destruct q as [i x y z]. unfold float_quat_comp. cbn [qi qx qy qz].
  f_equal; field; lra.
Qed.

Lemma Rabs_le_bounds (x b : R) : Rabs x <= b -> - b <= x <= b.
Proof.
  unfold Rabs. destruct (Rcase_abs x); intros H; lra.
Qed.

Section ResetMore.

Context {lib : PprzLib} {cfg : Airframe}.

(** X11.  Reset is idempotent: once the error has been folded into a
    non-zero reference quaternion, a second reset changes nothing. *)
Theorem reset_state_idempotent (a : AhrsMlkf) :
  float_quat_norm (ltp_to_imu_quat a) <> 0 ->
  reset_state (reset_state a) = reset_state a.
Proof.
  intros Hq.
  pose proof (reset_state_unit a Hq) as Hu.
  rewrite (reset_state_eq (reset_state a)).
  rewrite (reset_state_eq a) at 2.
  rewrite (reset_state_eq a) in Hu. cbn [ltp_to_imu_quat] in Hu.
  rewrite (reset_state_eq a).
  cbn [ltp_to_imu_quat imu_rate gyro_bias mag_h mag_noise gibbs_cor P
       lp_accel status body_to_imu qx qy qz].
  rewrite normalize_comp_scalar by (lra || exact Hu).
  reflexivity.
Qed.

(** X12.  A measurement that agrees with the prediction leaves the attitude
    alone: for a unit reference quaternion and a Gibbs error vector with
    zero vector part, an update with the measurement equal to the rotated
    reference direction followed by a reset returns the same reference
    quaternion, whatever the reference direction and the noise; so does
    the magnetometer update when the measured field equals the rotated
    reference field. *)
Theorem perfect_measurement_keeps_attitude (a : AhrsMlkf) (mag : Int32Vect3) :
  float_quat_norm (ltp_to_imu_quat a) = 1 ->
  quat_vector_zero (gibbs_cor a) ->
  (forall i_expected noise : FloatVect3,
      ltp_to_imu_quat
        (reset_state
           (update_state a i_expected
              (float_quat_vmult (ltp_to_imu_quat a) i_expected) noise))
      = ltp_to_imu_quat a)
  /\ (MAGS_FLOAT_OF_BFP mag = float_quat_vmult (ltp_to_imu_quat a) (mag_h a) ->
      ltp_to_imu_quat (ahrs_mlkf_update_mag a mag) = ltp_to_imu_quat a).
Proof.
  intros Hn (Hx & Hy & Hz).
  assert (G : forall ie bm noise,
             bm = float_quat_vmult (ltp_to_imu_quat a) ie ->
             ltp_to_imu_quat (reset_state (update_state a ie bm noise))
             = ltp_to_imu_quat a).
  { intros ie bm noise Ebm.
    pose proof (update_state_predicted_gibbs a ie noise) as Hg.
    rewrite <- Ebm in Hg.
    rewrite reset_state_eq. cbn [ltp_to_imu_quat].
    rewrite Hg, Hx, Hy, Hz.
    rewrite update_state_eq. cbn [ltp_to_imu_quat].
    apply normalize_comp_scalar; [lra | exact Hn]. }
  split.
  - intros ie noise. apply G. reflexivity.
  - intros Hm. unfold ahrs_mlkf_update_mag. cbv zeta.
    apply G. exact Hm.
Qed.

Lemma update_state_ltp a ie bm noise :
  ltp_to_imu_quat (update_state a ie bm noise) = ltp_to_imu_quat a.
Proof. reflexivity. Qed.

Lemma dispatch_unit (w : World) (e : Event) :
  (forall acc mag,
      float_quat_norm (ahrs_float_get_quat_from_accel_mag acc mag) = 1) ->
  float_quat_norm (ltp_to_imu_quat (ahrs_mlkf w)) = 1 ->
  float_quat_norm (ltp_to_imu_quat (ahrs_mlkf (dispatch w e))) = 1.
Proof.
  intros Hal Hq.
  assert (Hnz : float_quat_norm (ltp_to_imu_quat (ahrs_mlkf w)) <> 0)
    by (rewrite Hq; lra).
  assert (Hp : forall gyro dt,
             float_quat_norm
               (ltp_to_imu_quat (ahrs_mlkf (ahrs_mlkf_propagate w gyro dt)))
             = 1).
  { intros gyro dt.
    change (ltp_to_imu_quat (ahrs_mlkf (ahrs_mlkf_propagate w gyro dt)))
      with (ltp_to_imu_quat (propagate_ref (ahrs_mlkf w) gyro dt)).
    apply propagate_ref_unit. exact Hnz. }
  destruct e; cbn [dispatch].
  - unfold gyro_cb. destruct calculating_dt.
    + destruct ((0 <? last_stamp w)%Z && is_running w);
        cbn [set_last_stamp ahrs_mlkf]; [apply Hp | exact Hq].
    + destruct AHRS_PROPAGATE_FREQUENCY; [|exact Hq].
      destruct (is_running w); [apply Hp | exact Hq].
  - unfold accel_cb. destruct (is_running w); [|exact Hq].
    cbn [set_ahrs_mlkf ahrs_mlkf]. unfold ahrs_mlkf_update_accel. cbv zeta.
    apply reset_state_unit. rewrite update_state_ltp. exact Hnz.
  - unfold mag_cb. destruct (is_running w); [|exact Hq].
    cbn [set_ahrs_mlkf ahrs_mlkf]. unfold ahrs_mlkf_update_mag. cbv zeta.
    apply reset_state_unit. rewrite update_state_ltp. exact Hnz.
  - unfold aligner_cb. destruct (is_running w); cbn [negb]; [exact Hq|].
    apply Hal.
Qed.

(** X13.  The unit norm of the reference quaternion is an invariant of the
    whole event loop: when alignment produces unit quaternions, a filter
    whose reference quaternion has norm 1 keeps a norm-1 reference
    quaternion through every sequence of gyro, accelerometer, magnetometer
    and alignment events, in both timing builds and both rate modes. *)
Theorem run_unit_quaternion (w : World) (es : list Event) :
  (forall acc mag,
      float_quat_norm (ahrs_float_get_quat_from_accel_mag acc mag) = 1) ->
  float_quat_norm (ltp_to_imu_quat (ahrs_mlkf w)) = 1 ->
  float_quat_norm (ltp_to_imu_quat (ahrs_mlkf (run w es))) = 1.
Proof.
  intros Hal. revert w. induction es as [|e es IH]; intros w Hq.
  - exact Hq.
  - change (run w (e :: es)) with (run (dispatch w e) es).
    apply IH, dispatch_unit; assumption.
Qed.

(** X14.  The accelerometer low-pass never leaves the envelope of what it is
    fed: if the stored estimate and the new deviation [|measured| - 9.81]
    are both within [B] in magnitude, so is the new estimate. *)
Theorem lp_accel_envelope (a : AhrsMlkf) (accel : Int32Vect3) (B : R) :
  Rabs (lp_accel a) <= B ->
  Rabs (float_vect3_norm (ACCELS_FLOAT_OF_BFP accel) - 9.81) <= B ->
  Rabs (lp_accel (ahrs_mlkf_update_accel a accel)) <= B.
Proof.
  intros Hl Hd.
  change (lp_accel (ahrs_mlkf_update_accel a accel))
    with (0.92 * lp_accel a
          + (1 - 0.92)
            * (float_vect3_norm (ACCELS_FLOAT_OF_BFP accel) - 9.81)).
  apply Rabs_le_bounds in Hl. apply Rabs_le_bounds in Hd.
  apply Rabs_le. lra.
Qed.

(** X15.  In the direct rate mode a gyro sample equal to the averaged gyro
    of the alignment gives a zero rate estimate: the bias set by alignment
    cancels it exactly. *)
Theorem aligned_gyro_gives_zero_rate (w : World) (lp_gyro : Int32Rates)
        (lp_accel_ev lp_mag : Int32Vect3) (dt : R) :
  AHRS_PROPAGATE_LOW_PASS_RATES = false ->
  imu_rate
    (propagate_ref
       (ahrs_mlkf (snd (ahrs_mlkf_align w lp_gyro lp_accel_ev lp_mag)))
       lp_gyro dt)
  = {| rp := 0; rq := 0; rr := 0 |}.
Proof.
  intros Hm. unfold propagate_ref. cbv zeta. rewrite Hm.
  cbn [imu_rate set_ltp_to_imu_quat set_imu_rate].
  unfold RATES_SUB, ahrs_mlkf_align. cbv zeta.
  cbn [snd ahrs_mlkf set_ahrs_mlkf gyro_bias set_status set_gyro_bias].
  f_equal; ring.
Qed.

(** X16.  In the low-pass rate mode the rate estimate stays within the
    envelope of its inputs: if the stored estimate and the debiased gyro
    sample are within [B] on every axis, so is the new estimate. *)
Theorem low_pass_rates_envelope (a : AhrsMlkf) (gyro : Int32Rates)
        (dt B : R) :
  AHRS_PROPAGATE_LOW_PASS_RATES = true ->
  rates_within B (imu_rate a) ->
  rates_within B (RATES_SUB (RATES_FLOAT_OF_BFP gyro) (gyro_bias a)) ->
  rates_within B (imu_rate (propagate_ref a gyro dt)).
Proof.
  intros Hm (Hp & Hq & Hr) (Gp & Gq & Gr).
  unfold propagate_ref. cbv zeta. rewrite Hm.
  cbn [imu_rate set_ltp_to_imu_quat set_imu_rate].
  unfold FLOAT_RATES_LIN_CMB, rates_within. cbn [rp rq rr].
  apply Rabs_le_bounds in Hp, Hq, Hr, Gp, Gq, Gr.
  repeat split; apply Rabs_le; lra.
Qed.

End ResetMore.

(* ================================================================== *)
(** * Further properties of the CHIMU frame handling                   *)
(* ================================================================== *)

Section ChimuMore.

Variables T L : Type.
Variable CHIMU_Parse :
  Z -> Z -> CHIMU_PARSER_DATA T -> bool * CHIMU_PARSER_DATA T.
Variable led_toggle : L -> L.

(** X17.  For an accepted attitude frame the angles published are the ones
    left in [CHIMU_DATA]: the roll reduction is done in place, so the
    parser data and the vehicle-state interface agree; pitch and yaw are
    the decoded ones, untouched, and [new_ins_attitude] is raised. *)
Theorem parse_ins_ch_published_is_stored (w : ChimuWorld T L) (ch : Z) :
  let d := snd (CHIMU_Parse ch 0 (CHIMU_DATA w)) in
  let w' := parse_ins_ch CHIMU_Parse led_toggle w ch in
  fst (CHIMU_Parse ch 0 (CHIMU_DATA w)) = true ->
  m_MsgID d = 0x03%Z ->
  ins_state w'
  = NedToBodyEulers_f (euler (m_attitude (CHIMU_DATA w'))) :: ins_state w
  /\ theta (euler (m_attitude (CHIMU_DATA w'))) = theta (euler (m_attitude d))
  /\ psi (euler (m_attitude (CHIMU_DATA w'))) = psi (euler (m_attitude d))
  /\ m_MsgID (CHIMU_DATA w') = 0x03%Z
  /\ new_ins_attitude w' = 1%Z.
Proof.
  intros d w' Ha Hid. subst w' d. unfold parse_ins_ch.
  destruct (CHIMU_Parse ch 0 (CHIMU_DATA w)) as [acc d].
  cbn [fst snd] in *. subst acc. rewrite Hid. cbn [Z.eqb Pos.eqb].
  destruct (Rgt_dec (phi (euler (m_attitude d))) M_PI);
    cbn [ins_state CHIMU_DATA new_ins_attitude set_euler_phi m_attitude
         euler phi theta psi m_MsgID stateSetNedToBodyEulers_f].
  - repeat split. exact Hid.
  - destruct d as [id [[ph th ps]] o]. cbn in *. repeat split. exact Hid.
Qed.

Lemma parse_ins_ch_cases (w : ChimuWorld T L) (ch : Z) :
  let w' := parse_ins_ch CHIMU_Parse led_toggle w ch in
  (ins_state w' = ins_state w
   /\ new_ins_attitude w' = new_ins_attitude w /\ leds w' = leds w)
  \/ (exists e, ins_state w' = NedToBodyEulers_f e :: ins_state w
                /\ new_ins_attitude w' = 1%Z).
Proof.
  cbv zeta. unfold parse_ins_ch.
  destruct (CHIMU_Parse ch 0 (CHIMU_DATA w)) as [acc d].
  destruct acc; [|left; repeat split].
  destruct (m_MsgID d =? 3)%Z; [|left; repeat split].
  right. eexists. split; reflexivity.
Qed.

Lemma parse_ins_ch_rx (w : ChimuWorld T L) (ch : Z) :
  ins_rx (parse_ins_ch CHIMU_Parse led_toggle w ch) = ins_rx w.
Proof.
  unfold parse_ins_ch.
  destruct (CHIMU_Parse ch 0 (CHIMU_DATA w)) as [acc d].
  destruct acc; [|reflexivity].
  destruct (m_MsgID d =? 3)%Z; reflexivity.
Qed.

Lemma parse_ins_loop_appends (rx : list Z) (w : ChimuWorld T L) :
  let w' := parse_ins_loop CHIMU_Parse led_toggle rx w in
  exists pre,
    ins_state w' = pre ++ ins_state w
    /\ (length pre <= length rx)%nat
    /\ Forall is_eulers_write pre
    /\ ins_rx w' = []
    /\ ((pre = [] /\ new_ins_attitude w' = new_ins_attitude w
         /\ leds w' = leds w)
        \/ (pre <> [] /\ new_ins_attitude w' = 1%Z)).
Proof.
  cbv zeta. revert w. induction rx as [|ch rest IH]; intros w.
  - exists []. cbn. repeat split; try lia; auto.
  - cbn [parse_ins_loop].
    set (w1 := mkChimuWorld (CHIMU_DATA w) (new_ins_attitude w) (leds w) rest
                            (ins_state w)).
    destruct (IH (parse_ins_ch CHIMU_Parse led_toggle w1 ch))
      as (pre & Es & Hlen & Hall & Hrx & Hflag).
    destruct (parse_ins_ch_cases w1 ch) as [(Es1 & Ef1 & El1)|(e & Es1 & Ef1)];
      cbv zeta in *.
    + exists pre. rewrite Es, Es1. cbn [length].
      repeat split; try assumption; try lia.
      destruct Hflag as [(Hp & Hf & Hl)|(Hp & Hf)].
      * left. rewrite Hf, Hl, Ef1, El1. repeat split. exact Hp.
      * right. split; assumption.
    + exists (pre ++ [NedToBodyEulers_f e]). rewrite Es, Es1.
      rewrite <- app_assoc. cbn [app]. rewrite length_app. cbn [length].
      repeat split; try assumption; try lia.
      * apply Forall_app. split; [exact Hall|]. constructor; [exact I|constructor].
      * right. split; [intros E; apply app_eq_nil in E; destruct E; discriminate|].
        destruct Hflag as [(Hp & Hf & Hl)|(Hp & Hf)];
          [rewrite Hf; exact Ef1 | exact Hf].
Qed.

(** X18.  [parse_ins_msg] drains the UART and only ever adds Euler
    attitudes on top of the vehicle-state interface, at most one per byte
    received; values written earlier are never removed or changed.  The
    flag [new_ins_attitude] is 1 whenever something was written and is
    never cleared: if nothing was written, flag and LEDs are as before. *)
Theorem parse_ins_msg_appends (w : ChimuWorld T L) :
  let w' := parse_ins_msg CHIMU_Parse led_toggle w in
  exists pre,
    ins_state w' = pre ++ ins_state w
    /\ (length pre <= length (ins_rx w))%nat
    /\ Forall is_eulers_write pre
    /\ ins_rx w' = []
    /\ ((pre = [] /\ new_ins_attitude w' = new_ins_attitude w
         /\ leds w' = leds w)
        \/ (pre <> [] /\ new_ins_attitude w' = 1%Z)).
Proof. apply parse_ins_loop_appends. Qed.

(** X19.  Bytes that complete no frame, and frames with another message id
    than 0x03, never reach the vehicle state: when the parser accepts no
    attitude frame on any byte, [parse_ins_msg] leaves the state interface,
    the flag and the LEDs untouched. *)
Theorem parse_ins_msg_no_attitude_frame (w : ChimuWorld T L) :
  (forall ch d, fst (CHIMU_Parse ch 0 d) = false
                \/ m_MsgID (snd (CHIMU_Parse ch 0 d)) <> 0x03%Z) ->
  ins_state (parse_ins_msg CHIMU_Parse led_toggle w) = ins_state w
  /\ new_ins_attitude (parse_ins_msg CHIMU_Parse led_toggle w)
     = new_ins_attitude w
  /\ leds (parse_ins_msg CHIMU_Parse led_toggle w) = leds w.
Proof.
  intros Hno. unfold parse_ins_msg.
  generalize (ins_rx w). intros rx.
  revert w. induction rx as [|ch rest IH]; intros w.
  - repeat split.
  - cbn [parse_ins_loop].
    set (w1 := mkChimuWorld (CHIMU_DATA w) (new_ins_attitude w) (leds w) rest
                            (ins_state w)).
    destruct (IH (parse_ins_ch CHIMU_Parse led_toggle w1 ch)) as (Es & Ef & El).
    rewrite Es, Ef, El.
    unfold parse_ins_ch.
    specialize (Hno ch (CHIMU_DATA w1)).
    destruct (CHIMU_Parse ch 0 (CHIMU_DATA w1)) as [acc d].
    cbn [fst snd] in Hno.
    destruct acc; [|repeat split].
    destruct (Z.eqb_spec (m_MsgID d) 3) as [E|_]; [|repeat split].
    destruct Hno as [Hno|Hno]; [discriminate | contradiction].
Qed.

End ChimuMore.

(* ================================================================== *)
(** * The further properties on concrete inputs                        *)
(* ================================================================== *)

Lemma filter_example_uncorrelated :
  bias_attitude_uncorrelated (P filter_example).
Proof. intros i l Hi Hl. split_index i; split_index l; reflexivity. Qed.

Lemma filter_example_unit :
  float_quat_norm (ltp_to_imu_quat filter_example) = 1.
Proof.
  change (ltp_to_imu_quat filter_example) with quat_unit.
  apply float_quat_norm_quat_unit.
Qed.

Lemma sensors_ignored_before_alignment_witness :
  status (ahrs_mlkf (@world_init cfg_auto body_to_imu_example []))
  = AHRS_MLKF_UNINIT
  /\ forallb (fun e => negb (is_lowpassed e)) es_sensors = true
  /\ ahrs_mlkf (@run lib_example cfg_auto
                     (@world_init cfg_auto body_to_imu_example []) es_sensors)
     = ahrs_mlkf (@world_init cfg_auto body_to_imu_example [])
  /\ state (@run lib_example cfg_auto
                 (@world_init cfg_auto body_to_imu_example []) es_sensors)
     = [].
Proof.
  split; [reflexivity|]. split; [reflexivity|].
  exact (@sensors_ignored_before_alignment lib_example cfg_auto
           (@world_init cfg_auto body_to_imu_example []) es_sensors
           eq_refl eq_refl).
Defined.

Lemma fixed_frequency_publishes_per_gyro_witness :
  @calculating_dt cfg_fixed = false
  /\ status (ahrs_mlkf world_aligned_fixed) = AHRS_MLKF_RUNNING
  /\ length (state (@run lib_example cfg_fixed world_aligned_fixed es_sensors))
     = 6%nat.
Proof.
  split; [reflexivity|]. split; [reflexivity|].
  exact (@fixed_frequency_publishes_per_gyro lib_example cfg_fixed
           world_aligned_fixed es_sensors eq_refl eq_refl).
Defined.

Lemma gyro_cb_dt_wraps_witness :
  @calculating_dt cfg_auto = true
  /\ status (ahrs_mlkf world_running_stamped) = AHRS_MLKF_RUNNING
  /\ (0 < last_stamp world_running_stamped < 2 ^ 32)%Z
  /\ (0 <= 3000 < 2 ^ 32)%Z
  /\ exists dt,
       @gyro_cb lib_example cfg_auto world_running_stamped 3000 gyro_zero
       = set_last_stamp
           (@ahrs_mlkf_propagate lib_example cfg_auto world_running_stamped
                                 gyro_zero dt) 3000
       /\ dt = IZR (3000 - 1000) * 1e-6.
Proof.
  assert (Hl : (0 < last_stamp world_running_stamped < 2 ^ 32)%Z)
    by (cbn [last_stamp world_running_stamped set_last_stamp]; lia).
  assert (Hs : (0 <= 3000 < 2 ^ 32)%Z) by lia.
  split; [reflexivity|]. split; [reflexivity|].
  split; [exact Hl|]. split; [exact Hs|].
  destruct (@gyro_cb_dt_wraps lib_example cfg_auto world_running_stamped
              3000%Z gyro_zero eq_refl eq_refl Hl Hs)
    as (dt & E & _ & Hle & _).
  exists dt. split; [exact E|].
  apply Hle. cbn [last_stamp world_running_stamped set_last_stamp]. lia.
Defined.

Lemma propagate_state_bias_block_witness :
  mget (P (propagate_state filter_example (1 / 512))) 3 3
  = 1e-4 + 1 / 512 * (1 / 512) * 9e-6.
Proof.
  assert (H33 : (3 <= 3 < 6)%nat) by lia.
  exact (propagate_state_bias_block filter_example (1 / 512) 3 3 H33 H33).
Defined.

Lemma propagate_state_zero_dt_witness :
  mget (P (propagate_state filter_example 0)) 0 0 = 1.
Proof.
  assert (H0 : (0 < 6)%nat) by lia.
  exact (propagate_state_zero_dt filter_example 0 0 H0 H0).
Defined.

Lemma update_state_covariance_reduction_witness :
  symmetric 6 (P filter_example)
  /\ mget (P (@update_state lib_example filter_example
                {| vx := 0; vy := 0; vz := - 9.81 |}
                {| vx := 0; vy := 0; vz := - 9.81 |}
                {| vx := 1; vy := 1; vz := 1 |})) 0 1
     = mget (P filter_example) 0 1
       - MatSpec.mul 3
           (MatSpec.mul 3
              (MatSpec.tr
                 (MatSpec.mul 6
                    (KalmanSpec.H
                       (quat_rotate (ltp_to_imu_quat filter_example)
                                    {| vx := 0; vy := 0; vz := - 9.81 |}))
                    (mget (P filter_example))))
              (MatSpec.inv3
                 (KalmanSpec.S
                    (quat_rotate (ltp_to_imu_quat filter_example)
                                 {| vx := 0; vy := 0; vz := - 9.81 |})
                    {| vx := 1; vy := 1; vz := 1 |}
                    (mget (P filter_example)))))
           (MatSpec.mul 6
              (KalmanSpec.H
                 (quat_rotate (ltp_to_imu_quat filter_example)
                              {| vx := 0; vy := 0; vz := - 9.81 |}))
              (mget (P filter_example))) 0%nat 1%nat.
Proof.
  assert (H0 : (0 < 6)%nat) by lia.
  assert (H1 : (1 < 6)%nat) by lia.
  split; [exact filter_example_symmetric|].
  exact (@update_state_covariance_reduction lib_example filter_example
           _ _ _ 0%nat 1%nat filter_example_symmetric H0 H1).
Defined.

Lemma update_state_uncorrelated_bias_witness :
  bias_attitude_uncorrelated (P filter_example)
  /\ gyro_bias (@update_state lib_example filter_example
                  {| vx := 0; vy := 0; vz := - 9.81 |}
                  {| vx := 1; vy := 2; vz := 3 |}
                  {| vx := 1; vy := 1; vz := 1 |})
     = gyro_bias filter_example.
Proof.
  split; [exact filter_example_uncorrelated|].
  exact (proj1 (@update_state_uncorrelated_bias lib_example filter_example
                  _ _ _ filter_example_uncorrelated)).
Defined.

Lemma update_state_zero_innovation_witness :
  gibbs_cor (@update_state lib_example filter_example
               {| vx := 0; vy := 0; vz := - 9.81 |}
               (quat_rotate (ltp_to_imu_quat filter_example)
                            {| vx := 0; vy := 0; vz := - 9.81 |})
               {| vx := 1; vy := 1; vz := 1 |})
  = gibbs_cor filter_example.
Proof.
  exact (proj1 (@update_state_zero_innovation lib_example filter_example
                  {| vx := 0; vy := 0; vz := - 9.81 |} _
                  {| vx := 1; vy := 1; vz := 1 |} eq_refl)).
Defined.

Lemma reset_state_idempotent_witness :
  float_quat_norm (ltp_to_imu_quat filter_example) <> 0
  /\ reset_state (reset_state filter_example) = reset_state filter_example.
Proof.
  split; [exact filter_example_norm|].
  exact (reset_state_idempotent filter_example filter_example_norm).
Defined.

Lemma mag_north_is_predicted :
  @MAGS_FLOAT_OF_BFP lib_example mag_north
  = quat_rotate (ltp_to_imu_quat filter_example) (mag_h filter_example).
Proof.
  change (ltp_to_imu_quat filter_example) with quat_unit.
  change (mag_h filter_example) with {| vx := 1; vy := 0; vz := 0 |}.
  unfold MAGS_FLOAT_OF_BFP, mag_north, quat_rotate, float_quat_comp,
    quat_conj, quat_unit.
  cbn [MAG_FLOAT_OF_BFP lib_example ivx ivy ivz qi qx qy qz vx vy vz].
  f_equal; field.
Qed.

Lemma perfect_measurement_keeps_attitude_witness :
  float_quat_norm (ltp_to_imu_quat filter_example) = 1
  /\ quat_vector_zero (gibbs_cor filter_example)
  /\ ltp_to_imu_quat
       (reset_state
          (@update_state lib_example filter_example
             {| vx := 0; vy := 0; vz := - 9.81 |}
             (quat_rotate (ltp_to_imu_quat filter_example)
                          {| vx := 0; vy := 0; vz := - 9.81 |})
             {| vx := 1; vy := 1; vz := 1 |}))
     = ltp_to_imu_quat filter_example
  /\ @MAGS_FLOAT_OF_BFP lib_example mag_north
     = quat_rotate (ltp_to_imu_quat filter_example) (mag_h filter_example)
  /\ ltp_to_imu_quat (@ahrs_mlkf_update_mag lib_example filter_example
                                            mag_north)
     = ltp_to_imu_quat filter_example.
Proof.
  assert (Hz : quat_vector_zero (gibbs_cor filter_example))
    by (repeat split).
  pose proof (@perfect_measurement_keeps_attitude lib_example
                filter_example mag_north filter_example_unit Hz) as T.
  split; [exact filter_example_unit|]. split; [exact Hz|].
  split; [|split; [exact mag_north_is_predicted|]].
  - exact (proj1 T {| vx := 0; vy := 0; vz := - 9.81 |}
             {| vx := 1; vy := 1; vz := 1 |}).
  - exact (proj2 T mag_north_is_predicted).
Defined.

Lemma lib_example_aligns_unit (acc mag : Int32Vect3) :
  float_quat_norm (@ahrs_float_get_quat_from_accel_mag lib_example acc mag)
  = 1.
Proof. apply float_quat_norm_quat_unit. Qed.

Lemma world_init_unit :
  float_quat_norm
    (ltp_to_imu_quat
       (ahrs_mlkf (@world_init cfg_auto body_to_imu_example []))) = 1.
Proof.
  change (ltp_to_imu_quat
            (ahrs_mlkf (@world_init cfg_auto body_to_imu_example [])))
    with quat_unit.
  apply float_quat_norm_quat_unit.
Qed.

Lemma run_unit_quaternion_witness :
  float_quat_norm
    (ltp_to_imu_quat
       (ahrs_mlkf (@world_init cfg_auto body_to_imu_example []))) = 1
  /\ float_quat_norm
       (ltp_to_imu_quat
          (ahrs_mlkf (@run lib_example cfg_auto
                           (@world_init cfg_auto body_to_imu_example [])
                           (es_example ++ es_sensors)))) = 1.
Proof.
  split; [exact world_init_unit|].
  exact (@run_unit_quaternion lib_example cfg_auto
           (@world_init cfg_auto body_to_imu_example [])
           (es_example ++ es_sensors) lib_example_aligns_unit world_init_unit).
Defined.

Lemma lp_accel_envelope_witness :
  Rabs (lp_accel filter_example) <= 10
  /\ Rabs (float_vect3_norm (@ACCELS_FLOAT_OF_BFP lib_example accel_zero)
           - 9.81) <= 10
  /\ Rabs (lp_accel (@ahrs_mlkf_update_accel lib_example filter_example
                                             accel_zero)) <= 10.
Proof.
  assert (H1 : Rabs (lp_accel filter_example) <= 10).
  { change (lp_accel filter_example) with 0. rewrite Rabs_R0. lra. }
  assert (H2 : Rabs (float_vect3_norm
                       (@ACCELS_FLOAT_OF_BFP lib_example accel_zero)
                     - 9.81) <= 10).
  { rewrite float_vect3_norm_accel_zero. apply Rabs_le. lra. }
  split; [exact H1|]. split; [exact H2|].
  exact (@lp_accel_envelope lib_example filter_example accel_zero 10 H1 H2).
Defined.

Lemma aligned_gyro_gives_zero_rate_witness :
  @AHRS_PROPAGATE_LOW_PASS_RATES cfg_auto = false
  /\ imu_rate
       (@propagate_ref lib_example cfg_auto
          (ahrs_mlkf
             (snd (@ahrs_mlkf_align lib_example
                     (@world_init cfg_auto body_to_imu_example [])
                     {| irp := 12; irq := -7; irr := 3 |}
                     accel_rest mag_north)))
          {| irp := 12; irq := -7; irr := 3 |} (1 / 512))
     = {| rp := 0; rq := 0; rr := 0 |}.
Proof.
  split; [reflexivity|].
  exact (@aligned_gyro_gives_zero_rate lib_example cfg_auto
           (@world_init cfg_auto body_to_imu_example [])
           {| irp := 12; irq := -7; irr := 3 |} accel_rest mag_north
           (1 / 512) eq_refl).
Defined.

Lemma filter_example_rates_within :
  rates_within 1 (imu_rate filter_example)
  /\ rates_within 1 (RATES_SUB (@RATES_FLOAT_OF_BFP lib_example gyro_zero)
                               (gyro_bias filter_example)).
Proof.
  unfold rates_within, RATES_SUB, RATES_FLOAT_OF_BFP, gyro_zero.
  cbn [imu_rate gyro_bias filter_example ahrs_mlkf_init set_mag_noise set_P
       set_gyro_bias set_mag_h set_imu_rate rp rq rr irp irq irr
       RATE_FLOAT_OF_BFP lib_example].
  repeat split; apply Rabs_le; lra.
Qed.

Lemma low_pass_rates_envelope_witness :
  @AHRS_PROPAGATE_LOW_PASS_RATES cfg_lowpass = true
  /\ rates_within 1 (imu_rate filter_example)
  /\ rates_within 1
       (imu_rate (@propagate_ref lib_example cfg_lowpass filter_example
                                 gyro_zero (1 / 512))).
Proof.
  split; [reflexivity|]. split; [exact (proj1 filter_example_rates_within)|].
  exact (@low_pass_rates_envelope lib_example cfg_lowpass filter_example
           gyro_zero (1 / 512) 1 eq_refl
           (proj1 filter_example_rates_within)
           (proj2 filter_example_rates_within)).
Defined.

Lemma parse_ins_ch_published_is_stored_witness :
  fst (chimu_parse_keep 7 0 (CHIMU_DATA (chimu_world 4 []))) = true
  /\ ins_state (parse_ins_ch chimu_parse_keep (fun l => l)
                             (chimu_world 4 []) 7)
     = [NedToBodyEulers_f
          (euler (m_attitude
             (CHIMU_DATA (parse_ins_ch chimu_parse_keep (fun l => l)
                                       (chimu_world 4 []) 7))))].
Proof.
  split; [reflexivity|].
  exact (proj1 (@parse_ins_ch_published_is_stored unit unit chimu_parse_keep
                  (fun l => l) (chimu_world 4 []) 7%Z eq_refl eq_refl)).
Defined.

Lemma chimu_parse_reject_no_frame (ch : Z) (d : CHIMU_PARSER_DATA unit) :
  fst (chimu_parse_reject ch 0 d) = false
  \/ m_MsgID (snd (chimu_parse_reject ch 0 d)) <> 0x03%Z.
Proof. left. reflexivity. Qed.

Lemma parse_ins_msg_no_attitude_frame_witness :
  ins_state (parse_ins_msg chimu_parse_reject (fun l => l)
                           (chimu_world 4 [1; 2; 3]%Z)) = [].
Proof.
  exact (proj1 (@parse_ins_msg_no_attitude_frame unit unit chimu_parse_reject
                  (fun l => l) (chimu_world 4 [1; 2; 3]%Z)
                  chimu_parse_reject_no_frame)).
Defined.

Lemma ahrs_mlkf_init_establishes_witness :
  0 < mget (P (@ahrs_mlkf_init cfg_auto filter_example body_to_imu_example))
           3 3.
Proof.
  assert (H3 : (3 < 6)%nat) by lia.
  exact (proj1 (proj2 (proj2 (proj2 (proj2 (proj2
           (@ahrs_mlkf_init_establishes cfg_auto filter_example
              body_to_imu_example)))))) 3%nat H3).
Defined.

Lemma run_keeps_symmetric_witness :
  symmetric 6 (P (ahrs_mlkf world_running))
  /\ symmetric 6
       (P (ahrs_mlkf (@run lib_example cfg_auto world_running es_sensors))).
Proof.
  assert (H : symmetric 6 (P (ahrs_mlkf world_running))).
  { intros i j Hi Hj. split_index i; split_index j; reflexivity. }
  split; [exact H|].
  exact (@run_keeps_symmetric lib_example cfg_auto world_running es_sensors H).
Defined.

Lemma first_gyro_after_alignment_witness :
  @calculating_dt cfg_auto = true
  /\ status (ahrs_mlkf (@world_init cfg_auto body_to_imu_example []))
     = AHRS_MLKF_UNINIT
  /\ (0 < 1000)%Z
  /\ @gyro_cb lib_example cfg_auto
       (@aligner_cb lib_example
          (@gyro_cb lib_example cfg_auto
             (@world_init cfg_auto body_to_imu_example []) 1000 gyro_zero)
          2000 gyro_zero accel_rest mag_north) 3000 gyro_zero
     = set_last_stamp
         (@ahrs_mlkf_propagate lib_example cfg_auto
            (@aligner_cb lib_example
               (@gyro_cb lib_example cfg_auto
                  (@world_init cfg_auto body_to_imu_example []) 1000
                  gyro_zero)
               2000 gyro_zero accel_rest mag_north)
            gyro_zero (IZR (sub_u32 3000 1000) * 1e-6)) 3000.
Proof.
  assert (Hs : (0 < 1000)%Z) by lia.
  split; [reflexivity|]. split; [reflexivity|]. split; [exact Hs|].
  exact (@first_gyro_after_alignment lib_example cfg_auto
           (@world_init cfg_auto body_to_imu_example []) 1000%Z 3000%Z
           2000%Z gyro_zero gyro_zero gyro_zero accel_rest mag_north
           eq_refl eq_refl Hs).
Defined.

Lemma gyro_stamp_zero_disarms_witness :
  @calculating_dt cfg_auto = true
  /\ @gyro_cb lib_example cfg_auto
       (@gyro_cb lib_example cfg_auto world_running_stamped 0 gyro_zero)
       5000 gyro_zero
     = set_last_stamp
         (@gyro_cb lib_example cfg_auto world_running_stamped 0 gyro_zero)
         5000.
Proof.
  split; [reflexivity|].
  exact (@gyro_stamp_zero_disarms lib_example cfg_auto world_running_stamped
           5000%Z gyro_zero gyro_zero eq_refl).
Defined.
